(** * service-discovery-lib: the mDNS codec, correlator and search sessions

    A shallow embedding of [src/mdns_lib.js] and the properties its
    specification states about it.

    Conventions of the embedding.
    - A Node [Buffer] is a [list byte]; offsets are [Z], as the JS code computes
      them with [+] on numbers that stay far below 2^53.
    - A JS string is the list of its UTF-16 code units ([jsstring]); [js] turns an
      ASCII literal into one.
    - A call that can throw returns an [outcome]: [Ret v], [Throw e], or
      [OutOfFuel] when the iteration budget of a [while (true)] loop is spent
      (the loop of [read_name] is the only unbounded one).  A call that gives
      [OutOfFuel] for every budget does not return.
    - The platform is Node: [Buffer] reads and writes out of range throw,
      [toString] and [slice] clamp, a [dgram] socket throws when closed twice.
    - An object that is shared and mutated (the address array of a service)
      lives in a heap and is held by reference; the other values are never
      mutated after they are built and are held by value. *)

From Stdlib Require Import ZArith List Lia Bool Ascii String Permutation.
From Stdlib Require Import Strings.Byte.
From Stdlib Require Import Floats.PrimFloat.
Import ListNotations.

Open Scope Z_scope.

(* ================================================================== *)
(** ** Outcomes of calls that may throw or loop *)

Inductive js_error : Type :=
| ERR_OUT_OF_RANGE                      (* RangeError of Buffer.read*/write* *)
| ERR_SOCKET_DGRAM_NOT_RUNNING          (* dgram: close() of a closed socket *)
| TypeError_not_a_function
| Wrapped (prefix : string) (cause : js_error). (* new Error(`prefix: ${e.message}`) *)

Inductive outcome (A : Type) : Type :=
| Ret (a : A)
| Throw (e : js_error)
| OutOfFuel.
Arguments Ret {A} a.
Arguments Throw {A} e.
Arguments OutOfFuel {A}.

Definition bind {A B : Type} (m : outcome A) (k : A -> outcome B) : outcome B :=
  match m with
  | Ret a => k a
  | Throw e => Throw e
  | OutOfFuel => OutOfFuel
  end.

Notation "x <- m ;; k" := (bind m (fun x => k))
  (at level 61, m at next level, right associativity).

(** [try { body } catch (error) { throw new Error(`prefix: ${error.message}`) }] *)
Definition try_wrap {A : Type} (prefix : string) (body : outcome A) : outcome A :=
  match body with
  | Throw e => Throw (Wrapped prefix e)
  | other => other
  end.

(* ================================================================== *)
(** ** JS strings *)

Definition jsstring : Type := list Z.

Definition js (s : string) : jsstring :=
  map (fun a => Z.of_N (N_of_ascii a)) (list_ascii_of_string s).

Fixpoint str_eqb (a b : jsstring) : bool :=
  match a, b with
  | [], [] => true
  | x :: a', y :: b' => (x =? y) && str_eqb a' b'
  | _, _ => false
  end.

Definition str_length (s : jsstring) : Z := Z.of_nat (List.length s).

(** [s.endsWith(suffix)] *)
Definition endsWith (s suffix : jsstring) : bool :=
  (List.length suffix <=? List.length s)%nat &&
  str_eqb (skipn (List.length s - List.length suffix) s) suffix.

(** [s.substring(0, s.length - suffix.length)] for [suffix.length <= s.length] *)
Definition strip_suffix (s suffix : jsstring) : jsstring :=
  firstn (List.length s - List.length suffix) s.

Definition dot : Z := 46.
Definition equals_sign : Z := 61.

(** [s.split(sep)] for a one-unit separator: the pieces between the separators,
    empty pieces included; the empty string splits into one empty piece. *)
Fixpoint split_on (sep : Z) (s : jsstring) : list jsstring :=
  match s with
  | [] => [[]]
  | c :: rest =>
      if c =? sep then [] :: split_on sep rest
      else match split_on sep rest with
           | [] => [[c]]
           | p :: ps => (c :: p) :: ps
           end
  end.

(** [parts.join(sep)] *)
Fixpoint join_with (sep : Z) (parts : list jsstring) : jsstring :=
  match parts with
  | [] => []
  | [p] => p
  | p :: ps => p ++ sep :: join_with sep ps
  end.

(** [s.indexOf(c)] for one code unit: [None] stands for -1. *)
Fixpoint indexOf (c : Z) (s : jsstring) : option nat :=
  match s with
  | [] => None
  | x :: rest =>
      if x =? c then Some O
      else option_map S (indexOf c rest)
  end.

(** [String(n)] for a non-negative integer: its decimal digits. *)
Fixpoint digits_fuel (fuel : nat) (n : Z) (acc : jsstring) : jsstring :=
  match fuel with
  | O => acc
  | S fuel' =>
      let acc' := (48 + n mod 10) :: acc in
      if n <? 10 then acc' else digits_fuel fuel' (n / 10) acc'
  end.

Definition number_to_string (n : Z) : jsstring :=
  digits_fuel (S (Z.to_nat (Z.log2 n))) n [].

(* ================================================================== *)
(** ** Buffers *)

Definition buffer : Type := list byte.

Definition byte_val (b : byte) : Z := Z.of_N (Byte.to_N b).

(** The byte stored by a typed-array write of an integer in 0..255. *)
Definition byte_of_Z (z : Z) : byte :=
  match Byte.of_N (Z.to_N (z mod 256)) with
  | Some b => b
  | None => x00
  end.

Definition buf_length (b : buffer) : Z := Z.of_nat (List.length b).

(** [buffer.readUInt8(offset)]: throws unless [0 <= offset <= length - 1]. *)
Definition readUInt8 (b : buffer) (offset : Z) : outcome Z :=
  if (0 <=? offset) && (offset <? buf_length b)
  then Ret (byte_val (nth (Z.to_nat offset) b x00))
  else Throw ERR_OUT_OF_RANGE.

(** [buffer.readUInt16BE(offset)]: throws unless [0 <= offset <= length - 2]. *)
Definition readUInt16BE (b : buffer) (offset : Z) : outcome Z :=
  if (0 <=? offset) && (offset + 2 <=? buf_length b)
  then Ret (byte_val (nth (Z.to_nat offset) b x00) * 256
            + byte_val (nth (Z.to_nat (offset + 1)) b x00))
  else Throw ERR_OUT_OF_RANGE.

(** [buffer.readUInt32BE(offset)]: throws unless [0 <= offset <= length - 4]. *)
Definition readUInt32BE (b : buffer) (offset : Z) : outcome Z :=
  if (0 <=? offset) && (offset + 4 <=? buf_length b)
  then Ret (byte_val (nth (Z.to_nat offset) b x00) * 16777216
            + byte_val (nth (Z.to_nat (offset + 1)) b x00) * 65536
            + byte_val (nth (Z.to_nat (offset + 2)) b x00) * 256
            + byte_val (nth (Z.to_nat (offset + 3)) b x00))
  else Throw ERR_OUT_OF_RANGE.

(** [buffer.slice(start, end)] for [0 <= start]: both ends are clamped to the
    buffer, never an error. *)
Definition slice (b : buffer) (start stop : Z) : buffer :=
  firstn (Z.to_nat (stop - start)) (skipn (Z.to_nat start) b).

(** A two-byte buffer filled by [writeUInt16BE(v, 0)], [0 <= v < 65536]. *)
Definition u16be (v : Z) : buffer := [byte_of_Z (v / 256); byte_of_Z v].

(** [len = Buffer.alloc(1); len.writeUInt8(value, 0)]: Node throws
    ERR_OUT_OF_RANGE when the value is not in 0..255. *)
Definition writeUInt8_alloc1 (value : Z) : outcome buffer :=
  if (0 <=? value) && (value <=? 255)
  then Ret [byte_of_Z value]
  else Throw ERR_OUT_OF_RANGE.

(* ------------------------------------------------------------------ *)
(** *** UTF-8, as Node's [Buffer.from(string)] and [buffer.toString('utf8')]

    The encoder and the decoder with replacement of the WHATWG Encoding
    standard, which V8 implements. *)

Definition replacement : Z := 65533. (* U+FFFD *)

Definition utf8_of_code_point (cp : Z) : buffer :=
  if cp <? 128 then [byte_of_Z cp]
  else if cp <? 2048 then
    [byte_of_Z (Z.lor 192 (Z.shiftr cp 6));
     byte_of_Z (Z.lor 128 (Z.land cp 63))]
  else if cp <? 65536 then
    [byte_of_Z (Z.lor 224 (Z.shiftr cp 12));
     byte_of_Z (Z.lor 128 (Z.land (Z.shiftr cp 6) 63));
     byte_of_Z (Z.lor 128 (Z.land cp 63))]
  else
    [byte_of_Z (Z.lor 240 (Z.shiftr cp 18));
     byte_of_Z (Z.lor 128 (Z.land (Z.shiftr cp 12) 63));
     byte_of_Z (Z.lor 128 (Z.land (Z.shiftr cp 6) 63));
     byte_of_Z (Z.lor 128 (Z.land cp 63))].

Definition is_high_surrogate (c : Z) : bool := (55296 <=? c) && (c <=? 56319).
Definition is_low_surrogate (c : Z) : bool := (56320 <=? c) && (c <=? 57343).

(** [Buffer.from(s)]: the UTF-8 encoding of the string; a surrogate pair is one
    code point, a lone surrogate is encoded as U+FFFD. *)
Fixpoint Buffer_from (s : jsstring) : buffer :=
  match s with
  | [] => []
  | c :: rest =>
      if is_high_surrogate c then
        match rest with
        | d :: rest' =>
            if is_low_surrogate d
            then utf8_of_code_point (65536 + (c - 55296) * 1024 + (d - 56320))
                   ++ Buffer_from rest'
            else utf8_of_code_point replacement ++ Buffer_from rest
        | [] => utf8_of_code_point replacement
        end
      else if is_low_surrogate c then utf8_of_code_point replacement ++ Buffer_from rest
      else utf8_of_code_point c ++ Buffer_from rest
  end.

(** A multi-byte sequence being decoded: the code point so far, the number of
    continuation bytes still expected, and the range allowed for the next one. *)
Record utf8_pending : Type := mk_pending {
  u_code_point : Z;
  u_needed : nat;
  u_lower : Z;
  u_upper : Z
}.

Definition utf16_of_code_point (cp : Z) : jsstring :=
  if cp <? 65536 then [cp]
  else [55296 + Z.shiftr (cp - 65536) 10; 56320 + Z.land (cp - 65536) 1023].

(** A byte met when no sequence is pending: what is emitted, and the sequence
    it opens if it is a lead byte. *)
Definition utf8_lead (b : Z) : jsstring * option utf8_pending :=
  if b <=? 127 then ([b], None)
  else if (194 <=? b) && (b <=? 223) then
    ([], Some (mk_pending (Z.land b 31) 1 128 191))
  else if (224 <=? b) && (b <=? 239) then
    ([], Some (mk_pending (Z.land b 15) 2
                 (if b =? 224 then 160 else 128) (if b =? 237 then 159 else 191)))
  else if (240 <=? b) && (b <=? 244) then
    ([], Some (mk_pending (Z.land b 7) 3
                 (if b =? 240 then 144 else 128) (if b =? 244 then 143 else 191)))
  else ([replacement], None).

(** The decoder with replacement: every maximal ill-formed prefix becomes one
    U+FFFD and the byte that ended it is decoded again as a first byte. *)
Fixpoint utf8_decode (st : option utf8_pending) (bs : buffer) : jsstring :=
  match bs with
  | [] => match st with None => [] | Some _ => [replacement] end
  | b :: rest =>
      let v := byte_val b in
      match st with
      | None =>
          let '(out, st') := utf8_lead v in out ++ utf8_decode st' rest
      | Some p =>
          if (u_lower p <=? v) && (v <=? u_upper p) then
            let cp := Z.lor (Z.shiftl (u_code_point p) 6) (Z.land v 63) in
            match u_needed p with
            | S (S n) => utf8_decode (Some (mk_pending cp (S n) 128 191)) rest
            | _ => utf16_of_code_point cp ++ utf8_decode None rest
            end
          else
            let '(out, st') := utf8_lead v in
            replacement :: out ++ utf8_decode st' rest
      end
  end.

(** [buffer.toString('utf8', start, end)] for [0 <= start]. *)
Definition toString_utf8 (b : buffer) (start stop : Z) : jsstring :=
  utf8_decode None (slice b start stop).

(* ================================================================== *)
(** ** [build_query] *)

(** The [for (const part of qname_parts)] loop: the buffers pushed on
    [qname_buffer_array], concatenated. *)
Fixpoint qname_labels (parts : list jsstring) : outcome buffer :=
  match parts with
  | [] => Ret []
  | part :: rest =>
      match part with
      | [] => qname_labels rest                       (* if (!part) continue; *)
      | _ =>
          len <- writeUInt8_alloc1 (str_length part) ;;
          tail <- qname_labels rest ;;
          Ret (len ++ Buffer_from part ++ tail)
      end
  end.

Definition local_suffix : jsstring := js ".local".

Definition build_query (service_query : jsstring) : outcome buffer :=
  try_wrap "Error building query" (
    let full_service_query := service_query ++ local_suffix in
    let header := u16be 0 ++ u16be 0 ++ u16be 1 ++ u16be 0 ++ u16be 0 ++ u16be 0 in
    let qname_parts := split_on dot full_service_query in
    labels <- qname_labels qname_parts ;;
    let qname_buffer := labels ++ [x00] in
    let question := u16be 12 ++ u16be 1 in
    Ret (header ++ qname_buffer ++ question)).

(* ================================================================== *)
(** ** [read_name] *)

Record name_result : Type := mk_name_result {
  name : jsstring;
  read_bytes : Z
}.

(** The [while (true)] loop of [read_name]; one unit of fuel per iteration. *)
Fixpoint read_name_loop (fuel : nat) (buf : buffer) (offset : Z)
    (labels : list jsstring) (jumped : bool) (original_offset : Z)
    : outcome name_result :=
  match fuel with
  | O => OutOfFuel
  | S fuel' =>
      len <- readUInt8 buf offset ;;
      if len =? 0 then
        let offset := offset + 1 in
        Ret (mk_name_result (join_with dot labels)
                            (if jumped then original_offset else offset))
      else if Z.land len 192 =? 192 then
        low <- readUInt8 buf (offset + 1) ;;
        let pointer := Z.lor (Z.shiftl (Z.land len 63) 8) low in
        let original_offset := if jumped then original_offset else offset + 2 in
        read_name_loop fuel' buf pointer labels true original_offset
      else
        let offset := offset + 1 in
        let label := toString_utf8 buf offset (offset + len) in
        read_name_loop fuel' buf (offset + len) (labels ++ [label])
                       jumped original_offset
  end.

Definition read_name (fuel : nat) (buf : buffer) (offset : Z) : outcome name_result :=
  try_wrap "Error reading name from buffer"
    (read_name_loop fuel buf offset [] false offset).

(* ================================================================== *)
(** ** [parse_record] *)

(** A value stored in the TXT object: a string, or [true] for an entry
    without [=]. *)
Inductive txt_value : Type :=
| TxtString (s : jsstring)
| TxtTrue.

(** The TXT object [txts = {}], as its own properties in creation order.  No
    modelled code enumerates it, so the place JS gives to array-index keys in
    the enumeration order is not represented. *)
Definition txt_object : Type := list (jsstring * txt_value).

Definition proto_key : jsstring := js "__proto__".

Fixpoint overwrite {V : Type} (key : jsstring) (v : V) (o : list (jsstring * V))
    : option (list (jsstring * V)) :=
  match o with
  | [] => None
  | (k, w) :: rest =>
      if str_eqb k key then Some ((k, v) :: rest)
      else option_map (cons (k, w)) (overwrite key v rest)
  end.

(** [txts[key] = value] on an object created by [{}]: an own property is
    overwritten where it stands, a new one is added last; the key [__proto__]
    reaches the setter of [Object.prototype], which ignores a string or a
    boolean, so nothing is stored. *)
Definition txt_set (key : jsstring) (v : txt_value) (o : txt_object) : txt_object :=
  if str_eqb key proto_key then o
  else match overwrite key v o with
       | Some o' => o'
       | None => o ++ [(key, v)]
       end.

Inductive rdata : Type :=
| RName (instance : jsstring)                                 (* PTR *)
| RSrv (priority weight port : Z) (target : jsstring)         (* SRV *)
| RTxt (txts : txt_object)                                    (* TXT *)
| RAddr (ip : jsstring)                                       (* A *)
| RBytes (raw : buffer).                                      (* other types *)

Record record : Type := mk_record {
  r_name : jsstring;
  r_type : Z;
  r_cls : Z;
  r_ttl : Z;
  r_rdlength : Z;
  r_rdata : rdata;
  r_offset : Z
}.

(** The [while (offset < end)] loop of the TXT branch.  Every iteration
    advances [offset] by at least one, so [n] iterations are enough whenever
    [stop - offset <= n] ([txt_entries_enough]). *)
Fixpoint txt_entries (n : nat) (buf : buffer) (offset stop : Z) (txts : txt_object)
    : outcome (txt_object * Z) :=
  if offset <? stop then
    match n with
    | O => OutOfFuel
    | S n' =>
        txt_len <- readUInt8 buf offset ;;
        let offset := offset + 1 in
        let txt := toString_utf8 buf offset (offset + txt_len) in
        let offset := offset + txt_len in
        match indexOf equals_sign txt with
        | Some equal_index =>
            let key := firstn equal_index txt in
            let value := skipn (S equal_index) txt in
            txt_entries n' buf offset stop (txt_set key (TxtString value) txts)
        | None =>
            txt_entries n' buf offset stop (txt_set txt TxtTrue txts)
        end
    end
  else Ret (txts, offset).

(** The [for (let i = 0; i < rdlength; i++)] loop of the A branch. *)
Fixpoint ip_bytes (n : nat) (buf : buffer) (offset : Z) : outcome (list Z) :=
  match n with
  | O => Ret []
  | S n' =>
      b <- readUInt8 buf offset ;;
      rest <- ip_bytes n' buf (offset + 1) ;;
      Ret (b :: rest)
  end.

Definition parse_record (fuel : nat) (buf : buffer) (offset : Z) : outcome record :=
  try_wrap "Error parsing record" (
    name_result <- read_name fuel buf offset ;;
    let owner := name name_result in
    let offset := read_bytes name_result in
    type <- readUInt16BE buf offset ;;
    let offset := offset + 2 in
    cls <- readUInt16BE buf offset ;;
    let offset := offset + 2 in
    ttl <- readUInt32BE buf offset ;;
    let offset := offset + 4 in
    rdlength <- readUInt16BE buf offset ;;
    let offset := offset + 2 in
    if type =? 12 then
      target <- read_name fuel buf offset ;;
      Ret (mk_record owner type cls ttl rdlength (RName (name target))
                     (offset + rdlength))
    else if type =? 33 then
      priority <- readUInt16BE buf offset ;;
      weight <- readUInt16BE buf (offset + 2) ;;
      port <- readUInt16BE buf (offset + 4) ;;
      target <- read_name fuel buf (offset + 6) ;;
      Ret (mk_record owner type cls ttl rdlength
                     (RSrv priority weight port (name target))
                     (offset + rdlength))
    else if type =? 16 then
      r <- txt_entries (Z.to_nat rdlength) buf offset (offset + rdlength) [] ;;
      let '(txts, offset) := r in
      Ret (mk_record owner type cls ttl rdlength (RTxt txts) offset)
    else if type =? 1 then
      bytes <- ip_bytes (Z.to_nat rdlength) buf offset ;;
      Ret (mk_record owner type cls ttl rdlength
                     (RAddr (join_with dot (map number_to_string bytes)))
                     (offset + rdlength))
    else
      Ret (mk_record owner type cls ttl rdlength
                     (RBytes (slice buf offset (offset + rdlength)))
                     (offset + rdlength))).

(* ================================================================== *)
(** ** [parse_dns_message] *)

Record header : Type := mk_header {
  h_id : Z;
  h_flags : Z;
  h_qdcount : Z;
  h_ancount : Z;
  h_nscount : Z;
  h_arcount : Z
}.

Record dns_message : Type := mk_message {
  m_header : header;
  m_records : list record
}.

(** [for (let i = 0; i < header.qdcount; i++)]: the offset after the questions. *)
Fixpoint skip_questions (fuel : nat) (n : nat) (buf : buffer) (offset : Z) : outcome Z :=
  match n with
  | O => Ret offset
  | S n' =>
      res <- read_name fuel buf offset ;;
      skip_questions fuel n' buf (read_bytes res + 4)
  end.

(** [for (let i = 0; i < total_records; i++)]. *)
Fixpoint parse_records (fuel : nat) (n : nat) (buf : buffer) (offset : Z)
    : outcome (list record) :=
  match n with
  | O => Ret []
  | S n' =>
      rec <- parse_record fuel buf offset ;;
      rest <- parse_records fuel n' buf (r_offset rec) ;;
      Ret (rec :: rest)
  end.

Definition parse_dns_message (fuel : nat) (buf : buffer) : outcome dns_message :=
  try_wrap "Error parsing DNS message" (
    id <- readUInt16BE buf 0 ;;
    flags <- readUInt16BE buf 2 ;;
    qdcount <- readUInt16BE buf 4 ;;
    ancount <- readUInt16BE buf 6 ;;
    nscount <- readUInt16BE buf 8 ;;
    arcount <- readUInt16BE buf 10 ;;
    let hdr := mk_header id flags qdcount ancount nscount arcount in
    offset <- skip_questions fuel (Z.to_nat qdcount) buf 12 ;;
    let total_records := ancount + nscount + arcount in
    records <- parse_records fuel (Z.to_nat total_records) buf offset ;;
    Ret (mk_message hdr records)).

(* ================================================================== *)
(** ** [is_smart_ip_service] *)

Definition is_smart_ip_service (name full_service_query : jsstring) : bool :=
  str_eqb name full_service_query || endsWith name (dot :: full_service_query).

(* ================================================================== *)
(** ** The correlator: the ['message'] handler of [start_mdns_listener] *)

(** An entry of [services].  [port], [target], [txt] and [addresses] are
    absent ([undefined]) until a record sets them; [addresses] holds a
    reference to an array, which the devices handed to the callback share. *)
Record service : Type := mk_service {
  s_name : jsstring;
  s_port : option Z;
  s_target : option jsstring;
  s_txt : option txt_object;
  s_addresses : option nat
}.

(** The object [services = {}]: its own properties in creation order.  JS lists
    array-index keys first in [for ... in]; such a key never satisfies
    [is_smart_ip_service] (it would have to end in [local]), so its entry
    never gets a target and is never handed out ([process_record_bare]), and
    the order shown here is the one every observable effect follows. *)
Definition services_object : Type := list (jsstring * service).

(** The arrays created by [services[instance].addresses = []] and by
    [... || []], by reference. *)
Definition heap : Type := list (list jsstring).

Definition alloc (h : heap) : nat * heap := (List.length h, h ++ [[]]).

Fixpoint push (h : heap) (ref : nat) (v : jsstring) : heap :=
  match h, ref with
  | [], _ => []
  | a :: h', O => (a ++ [v]) :: h'
  | a :: h', S ref' => a :: push h' ref' v
  end.

Definition deref (h : heap) (ref : nat) : list jsstring := nth ref h [].

Record listener_state : Type := mk_listener_state {
  services : services_object;
  arrays : heap
}.

Fixpoint own_property {V : Type} (o : list (jsstring * V)) (key : jsstring) : option V :=
  match o with
  | [] => None
  | (k, v) :: rest => if str_eqb k key then Some v else own_property rest key
  end.

(** The property names every object inherits from [Object.prototype] in Node;
    all of them hold a function or an object, a truthy value. *)
Definition object_prototype_keys : list jsstring :=
  map js ["constructor"; "__defineGetter__"; "__defineSetter__"; "hasOwnProperty";
          "__lookupGetter__"; "__lookupSetter__"; "isPrototypeOf";
          "propertyIsEnumerable"; "toString"; "valueOf"; "__proto__";
          "toLocaleString"]%string.

(** The test [services[key]] of [if (!services[key])]. *)
Definition services_truthy (s : services_object) (key : jsstring) : bool :=
  match own_property s key with
  | Some _ => true
  | None => existsb (str_eqb key) object_prototype_keys
  end.

(** [services[key] = { name: key }] for a key that is not yet a property. *)
Definition add_service (s : services_object) (key : jsstring) : services_object :=
  s ++ [(key, mk_service key None None None None)].

(** [if (!services[key]) { services[key] = { name: key }; }] *)
Definition ensure_service (s : services_object) (key : jsstring) : services_object :=
  if services_truthy s key then s else add_service s key.

(** An assignment to fields of the own entry [services[key]]. *)
Fixpoint update_service (s : services_object) (key : jsstring) (f : service -> service)
    : services_object :=
  match s with
  | [] => []
  | (k, v) :: rest =>
      if str_eqb k key then (k, f v) :: rest
      else (k, v) :: update_service rest key f
  end.

Definition opt_str_eqb (a : option jsstring) (b : jsstring) : bool :=
  match a with
  | Some s => str_eqb s b
  | None => false
  end.

(** [for (const instance in services) { if (services[instance].target ===
    rec.name) { ... push(rec.rdata) } }] *)
Fixpoint push_address (entries : services_object) (h : heap) (owner ip : jsstring)
    : services_object * heap :=
  match entries with
  | [] => ([], h)
  | (instance, svc) :: rest =>
      if opt_str_eqb (s_target svc) owner then
        match s_addresses svc with
        | Some ref =>
            let '(rest', h') := push_address rest (push h ref ip) owner ip in
            ((instance, svc) :: rest', h')
        | None =>
            let '(ref, h0) := alloc h in
            let svc' := mk_service (s_name svc) (s_port svc) (s_target svc)
                                   (s_txt svc) (Some ref) in
            let '(rest', h') := push_address rest (push h0 ref ip) owner ip in
            ((instance, svc') :: rest', h')
        end
      else
        let '(rest', h') := push_address rest h owner ip in
        ((instance, svc) :: rest', h')
  end.

(** The body of [for (const rec of parsed.records)].  [parse_record] gives a
    PTR record an [RName], an SRV record an [RSrv], a TXT record an [RTxt] and
    an A record an [RAddr] ([parse_record_shape]); for another pairing of type
    and payload, which no parsed record has, the assignments that read the
    payload are left out.  In the SRV and TXT branches the key is under the
    service domain, hence never a name inherited from [Object.prototype]
    ([smart_name_not_inherited]): after [ensure_service] it is an own
    property, and the assignments update that entry. *)
Definition process_record (full_service_query : jsstring)
    (st : listener_state) (rec : record) : listener_state :=
  let s := services st in
  if (r_type rec =? 12) && str_eqb (r_name rec) full_service_query then
    match r_rdata rec with
    | RName service_instance =>
        if negb (services_truthy s service_instance)
        then mk_listener_state (add_service s service_instance) (arrays st)
        else st
    | _ => st
    end
  else if (r_type rec =? 33) && is_smart_ip_service (r_name rec) full_service_query then
    let s := ensure_service s (r_name rec) in
    match r_rdata rec with
    | RSrv _ _ port target =>
        let s := update_service s (r_name rec) (fun v =>
                   mk_service (s_name v) (Some port) (Some target)
                              (s_txt v) (s_addresses v)) in
        mk_listener_state s (arrays st)
    | _ => mk_listener_state s (arrays st)
    end
  else if (r_type rec =? 16) && is_smart_ip_service (r_name rec) full_service_query then
    let s := ensure_service s (r_name rec) in
    match r_rdata rec with
    | RTxt txts =>
        let s := update_service s (r_name rec) (fun v =>
                   mk_service (s_name v) (s_port v) (s_target v)
                              (Some txts) (s_addresses v)) in
        mk_listener_state s (arrays st)
    | _ => mk_listener_state s (arrays st)
    end
  else if r_type rec =? 1 then
    match r_rdata rec with
    | RAddr ip =>
        let '(s', h') := push_address s (arrays st) (r_name rec) ip in
        mk_listener_state s' h'
    | _ => st
    end
  else st.

(** The object literal handed to [on_service_found]. *)
Record device : Type := mk_device {
  d_name : jsstring;
  d_addresses : nat;            (* reference: [services[instance].addresses || []] *)
  d_port : option Z;
  d_properties : txt_object
}.

(** A callback on a caller state [S]: the new state, and the error it threw,
    if any. *)
Definition callback (S : Type) : Type := device -> S -> S * option js_error.

Definition display_name_of (full_service_query name : jsstring) : jsstring :=
  let suffix := dot :: full_service_query in
  if endsWith name suffix then strip_suffix name suffix else name.

(** The second loop of the handler, [for (const instance in services)], which
    reports every entry under the queried service.  The array made by
    [... || []] inside the logged template string is garbage at once and is
    not allocated here.  An error thrown by the callback leaves the loop. *)
Fixpoint notify_services {S : Type} (on_service_found : option (callback S))
    (full_service_query : jsstring) (entries : services_object)
    (h : heap) (cb : S) : heap * S * option js_error :=
  match entries with
  | [] => (h, cb, None)
  | (instance, svc) :: rest =>
      if negb (is_smart_ip_service (s_name svc) full_service_query)
      then notify_services on_service_found full_service_query rest h cb
      else
        let display_name := display_name_of full_service_query (s_name svc) in
        match on_service_found with
        | None => notify_services on_service_found full_service_query rest h cb
        | Some f =>
            let '(addresses, h1) :=
              match s_addresses svc with
              | Some ref => (ref, h)
              | None => alloc h
              end in
            let properties := match s_txt svc with Some t => t | None => [] end in
            let '(cb1, err) :=
              f (mk_device display_name addresses (s_port svc) properties) cb in
            match err with
            | Some e => (h1, cb1, Some e)
            | None => notify_services on_service_found full_service_query rest h1 cb1
            end
        end
  end.

(** The body of the handler once the message is parsed: the loop over the
    records, then the loop that reports the services.  An error thrown by the
    callback is caught by the handler; what was stored before it stays. *)
Definition on_records {S : Type} (full_service_query : jsstring)
    (on_service_found : option (callback S)) (records : list record)
    (st : listener_state) (cb : S) : listener_state * S :=
  let st1 := fold_left (process_record full_service_query) records st in
  let '(h, cb1, _) :=
    notify_services on_service_found full_service_query
                    (services st1) (arrays st1) cb in
  (mk_listener_state (services st1) h, cb1).

(** [socket.on('message', (msg, rinfo) => { try { ... } catch (e) {
    console.error(...) } })]: an error of the parser is logged and the handler
    returns. *)
Definition on_message {S : Type} (fuel : nat) (full_service_query : jsstring)
    (on_service_found : option (callback S)) (msg : buffer)
    (st : listener_state) (cb : S) : outcome (listener_state * S) :=
  match parse_dns_message fuel msg with
  | Ret parsed =>
      Ret (on_records full_service_query on_service_found (m_records parsed) st cb)
  | Throw _ => Ret (st, cb)
  | OutOfFuel => OutOfFuel
  end.

(* ================================================================== *)
(** ** Options and JS values *)

(** The values an option can hold. Functions and objects are named by an
    identifier; numbers are IEEE 754 doubles.  A function of the caller comes
    with what a call of it does to the code that calls it: it returns
    ([thrown] is [None]) or it throws ([Some e]); it is taken not to change
    the objects it is handed. *)
Inductive js_value : Type :=
| JSUndefined
| JSNull
| JSBoolean (b : bool)
| JSNumber (f : float)
| JSString (s : jsstring)
| JSFunction (id : nat) (thrown : option js_error)
| JSObject (id : nat).

(** ToBoolean: [undefined], [null], [false], [0], [-0], [NaN] and [''] are
    falsy. *)
Definition truthy (v : js_value) : bool :=
  match v with
  | JSUndefined | JSNull => false
  | JSBoolean b => b
  | JSNumber f => negb (PrimFloat.eqb f 0%float) && PrimFloat.eqb f f
  | JSString s => negb (str_eqb s [])
  | JSFunction _ _ | JSObject _ => true
  end.

(** [v || d] *)
Definition or_default (v d : js_value) : js_value := if truthy v then v else d.

Definition is_function (v : js_value) : bool :=
  match v with JSFunction _ _ => true | _ => false end.

(** [typeof v === 'number' && v > 0] *)
Definition is_positive_number (v : js_value) : bool :=
  match v with
  | JSNumber f => PrimFloat.ltb 0%float f
  | _ => false
  end.

(** [n || d] for a number: [0], [-0] and [NaN] give the default. *)
Definition number_or (v : option float) (d : float) : float :=
  match v with
  | Some f => if truthy (JSNumber f) then f else d
  | None => d
  end.

(** [s || d] for a string: [''] gives the default. *)
Definition string_or (v : option jsstring) (d : jsstring) : jsstring :=
  match v with
  | Some s => if truthy (JSString s) then s else d
  | None => d
  end.

(** The [options] object.  The address, port, interface and service name are
    of the type their documentation gives, when present ([None] is an unset
    property); Node's [bind] rejects some values of other types at once.  The
    timeout and the callbacks are any value: the code tests what they are. *)
Record search_options : Type := mk_options {
  opt_mdns_address : option jsstring;
  opt_mdns_port : option float;
  opt_interface : option jsstring;
  opt_service_query : option jsstring;
  opt_on_service_found : js_value;
  opt_timeout : js_value;
  opt_on_search_complete : js_value
}.

(** [{}], and the call without an argument. *)
Definition no_options : search_options :=
  mk_options None None None None JSUndefined JSUndefined JSUndefined.

(* ================================================================== *)
(** ** [start_mdns_listener] *)

(** What the socket is asked to do, in program order. *)
Inductive socket_call : Type :=
| CreateSocket
| Bind (port : float) (address : jsstring)
| AddMembership (group interface : jsstring)
| Send (query : buffer) (port : float) (address : jsstring)
| Close
| SetTimeout (delay : js_value).

(** The constants the closures of [start_mdns_listener] capture. *)
Record listener : Type := mk_listener {
  mdns_address : jsstring;
  mdns_port : float;
  local_interface : jsstring;
  service_query : jsstring;
  full_service_query : jsstring
}.

Definition default_service_query : jsstring := js "_smart_ip._tcp".
Definition default_interface : jsstring := js "169.254.137.22".

Definition listener_of (options : search_options) : listener :=
  let service_query :=
    string_or (opt_service_query options) default_service_query in
  mk_listener
    (string_or (opt_mdns_address options) (js "224.0.0.251"))
    (number_or (opt_mdns_port options) 5353%float)
    (string_or (opt_interface options) default_interface)
    service_query
    (service_query ++ local_suffix).

(** The synchronous part of [start_mdns_listener]: the socket is created, the
    handlers are registered and [bind] is requested; nothing in it throws. *)
Definition start_mdns_listener (options : search_options)
    : outcome (listener * list socket_call) :=
  let l := listener_of options in
  Ret (l, [CreateSocket; Bind (mdns_port l) (local_interface l)]).

(** The callback of [socket.bind]: join the group and send the query, inside
    one [try]: when [addMembership] throws ([joined] is [false]) nothing is
    sent, and an error of [build_query] is caught and logged the same way. *)
Definition on_bound (l : listener) (joined : bool) : list socket_call :=
  AddMembership (mdns_address l) (local_interface l) ::
  if joined then
    match build_query (service_query l) with
    | Ret query => [Send query (mdns_port l) (mdns_address l)]
    | _ => []
    end
  else [].

(* ================================================================== *)
(** ** [search_mdns_services] and [search_mdns_servicesmv1] *)

(** [unique_services = new Map()], in insertion order, and the calls made to
    the caller's own [on_service_found]. *)
Record search_state : Type := mk_search_state {
  unique_services : list (jsstring * device);
  found_calls : list (nat * device)
}.

Definition map_has {V : Type} (m : list (jsstring * V)) (key : jsstring) : bool :=
  match own_property m key with Some _ => true | None => false end.

(** [if (!unique_services.has(service.name)) unique_services.set(service.name,
    service);] *)
Definition remember (service : device) (u : list (jsstring * device))
    : list (jsstring * device) :=
  if negb (map_has u (d_name service)) then u ++ [(d_name service, service)] else u.

(** The wrapper [search_mdns_services] stores in [options.on_service_found];
    [original] is the caller's value, called when truthy, after the map is
    updated: what a function of the caller throws leaves the wrapper, and
    anything else that is truthy is not callable. *)
Definition on_service_found_v0 (original : js_value) : callback search_state :=
  fun service st =>
    let u := remember service (unique_services st) in
    if truthy original then
      match original with
      | JSFunction f thrown =>
          (mk_search_state u (found_calls st ++ [(f, service)]), thrown)
      | _ => (mk_search_state u (found_calls st), Some TypeError_not_a_function)
      end
    else (mk_search_state u (found_calls st), None).

(** The wrapper of [search_mdns_servicesmv1]; [original] is the caller's value
    when it is a function, and [null] otherwise. *)
Definition on_service_found_v1 (original : js_value) : callback search_state :=
  fun service st =>
    let u := remember service (unique_services st) in
    match original with
    | JSFunction f thrown =>
        (mk_search_state u (found_calls st ++ [(f, service)]), thrown)
    | _ => (mk_search_state u (found_calls st), None)
    end.

(** What the socket reports while the search runs. *)
Inductive socket_event : Type :=
| Listening (joined : bool)     (* the callback of [bind]; [joined]: the
                                   group was joined *)
| Datagram (msg : buffer)       (* 'message' *)
| SocketError.                  (* 'error': the handler closes the socket *)

Record session : Type := mk_session {
  correlator : listener_state;
  search : search_state;
  socket_open : bool;
  calls : list socket_call
}.

Definition new_session (setup : list socket_call) : session :=
  mk_session (mk_listener_state [] []) (mk_search_state [] []) true setup.

(** One event.  A closed socket emits nothing more. *)
Definition on_event (fuel : nat) (l : listener) (cb : callback search_state)
    (s : session) (ev : socket_event) : outcome session :=
  if socket_open s then
    match ev with
    | Listening joined =>
        Ret (mk_session (correlator s) (search s) true (calls s ++ on_bound l joined))
    | Datagram msg =>
        r <- on_message fuel (full_service_query l) (Some cb) msg
                        (correlator s) (search s) ;;
        Ret (mk_session (fst r) (snd r) true (calls s))
    | SocketError =>
        Ret (mk_session (correlator s) (search s) false (calls s ++ [Close]))
    end
  else Ret s.

Fixpoint on_events (fuel : nat) (l : listener) (cb : callback search_state)
    (s : session) (evs : list socket_event) : outcome session :=
  match evs with
  | [] => Ret s
  | ev :: rest =>
      s' <- on_event fuel l cb s ev ;;
      on_events fuel l cb s' rest
  end.

(** A Device as the caller reads it when the result is delivered. *)
Record delivered : Type := mk_delivered {
  name_of : jsstring;
  addresses_of : list jsstring;
  port_of : option Z;
  properties_of : txt_object
}.

Definition read_device (h : heap) (d : device) : delivered :=
  mk_delivered (d_name d) (deref h (d_addresses d)) (d_port d) (d_properties d).

(** [Array.from(unique_services.values())], read at the deadline. *)
Definition uniqueServiceArray (s : session) : list delivered :=
  map (fun kv => read_device (arrays (correlator s)) (snd kv))
      (unique_services (search s)).

(** The ways a result leaves the session. *)
Inductive delivery : Type :=
| CompleteCallback (f : nat) (result : list delivered)   (* on_search_complete(result) *)
| PromiseResolved (result : list delivered)              (* resolve(result) *)
| ConsoleLog (result : list delivered).

(** The timer callback of [search_mdns_services]: it closes the socket and
    hands over the result.  [socket.close()] throws when an ['error'] event
    has closed the socket before.  Nothing catches what [on_search_complete]
    throws: the callback ends there, with what was delivered by the returned
    calls only. *)
Definition deadline_v0 (options : search_options) (s : session)
    : outcome (list delivery) :=
  if socket_open s then
    let result := uniqueServiceArray s in
    if truthy (opt_on_search_complete options) then
      match opt_on_search_complete options with
      | JSFunction f None => Ret [CompleteCallback f result]
      | JSFunction f (Some e) => Throw e
      | _ => Throw TypeError_not_a_function
      end
    else Ret [ConsoleLog result]
  else Throw ERR_SOCKET_DGRAM_NOT_RUNNING.

(** The timer callback of [search_mdns_servicesmv1]: [on_search_complete] is
    called first when it is a function, and [resolve] is reached only when
    that call returns. *)
Definition deadline_v1 (options : search_options) (s : session)
    : outcome (list delivery) :=
  if socket_open s then
    let result := uniqueServiceArray s in
    called <- match opt_on_search_complete options with
              | JSFunction f None => Ret [CompleteCallback f result]
              | JSFunction f (Some e) => Throw e
              | _ => Ret []
              end ;;
    Ret (called ++ [ConsoleLog result; PromiseResolved result])
  else Throw ERR_SOCKET_DGRAM_NOT_RUNNING.

(** [options.timeout || 5000] *)
Definition timeout_v0 (options : search_options) : js_value :=
  or_default (opt_timeout options) (JSNumber 5000%float).

(** [typeof options.timeout === 'number' && options.timeout > 0 ?
    options.timeout : 5000] *)
Definition timeout_v1 (options : search_options) : js_value :=
  if is_positive_number (opt_timeout options) then opt_timeout options
  else JSNumber 5000%float.

(** What a call of a search function has done when it returns: the listener
    it started, and the socket and timer calls made so far. *)
Record started : Type := mk_started {
  started_listener : listener;
  started_calls : list socket_call
}.

Definition search_mdns_services (options : search_options) : outcome started :=
  let timeout := timeout_v0 options in
  r <- start_mdns_listener options ;;
  Ret (mk_started (fst r) (snd r ++ [SetTimeout timeout])).

(** The executor of the promise [search_mdns_servicesmv1] returns; it runs
    before the function returns. *)
Definition search_mdns_servicesmv1 (options : search_options) : outcome started :=
  let timeout := timeout_v1 options in
  r <- start_mdns_listener options ;;
  Ret (mk_started (fst r) (snd r ++ [SetTimeout timeout])).

(** A whole search: the call, the events the socket reports before the
    deadline, and the timer callback.  [OutOfFuel] is a handler that never
    returns, so that the timer callback never runs. *)
Definition run_v0 (fuel : nat) (options : search_options) (evs : list socket_event)
    : outcome (list delivery) :=
  st <- search_mdns_services options ;;
  s <- on_events fuel (started_listener st)
         (on_service_found_v0 (opt_on_service_found options))
         (new_session (started_calls st)) evs ;;
  deadline_v0 options s.

Definition run_v1 (fuel : nat) (options : search_options) (evs : list socket_event)
    : outcome (list delivery) :=
  st <- search_mdns_servicesmv1 options ;;
  s <- on_events fuel (started_listener st)
         (on_service_found_v1 (opt_on_service_found options))
         (new_session (started_calls st)) evs ;;
  deadline_v1 options s.

(* ================================================================== *)
(** ** Observations used by the properties *)

(** A callback that only collects what it is given. *)
Definition collect : callback (list device) :=
  fun d acc => (acc ++ [d], None).

(** The Devices the handler reports after the records [recs] have gone through
    the record loop of a fresh correlator, in this order. *)
Definition devices_after (full_service_query : jsstring) (recs : list record)
    : list delivered :=
  let st := fold_left (process_record full_service_query) recs
                      (mk_listener_state [] []) in
  let '(h, ds, _) :=
    notify_services (Some collect) full_service_query (services st) (arrays st) [] in
  map (read_device h) ds.

(** The position of the first record of type [ty], the length when there is
    none. *)
Fixpoint position_of_type (ty : Z) (recs : list record) : nat :=
  match recs with
  | [] => O
  | r :: rest => if r_type r =? ty then O else S (position_of_type ty rest)
  end.

(** The SRV record arrives before the A record. *)
Definition srv_before_a (recs : list record) : bool :=
  (position_of_type 33 recs <? position_of_type 1 recs)%nat.

Definition is_resolution (d : delivery) : bool :=
  match d with PromiseResolved _ => true | _ => false end.

Definition is_complete_callback (d : delivery) : bool :=
  match d with CompleteCallback _ _ => true | _ => false end.

(** The list a delivery carries. *)
Definition result_of (d : delivery) : list delivered :=
  match d with
  | CompleteCallback _ result => result
  | PromiseResolved result => result
  | ConsoleLog result => result
  end.

(** A call of the value, when it is a function, returns. *)
Definition returns (v : js_value) : bool :=
  match v with
  | JSFunction _ (Some _) => false
  | _ => true
  end.

Definition count {A : Type} (p : A -> bool) (l : list A) : nat :=
  List.length (filter p l).

(** The payload shape [parse_record] gives to each record type. *)
Definition shape_ok (r : record) : Prop :=
  match r_rdata r with
  | RName _ => r_type r = 12
  | RSrv _ _ _ _ => r_type r = 33
  | RTxt _ => r_type r = 16
  | RAddr _ => r_type r = 1
  | RBytes _ => r_type r <> 12 /\ r_type r <> 33 /\ r_type r <> 16 /\ r_type r <> 1
  end.

(** A label of a query name [build_query] encodes byte for byte: ASCII, so
    that its length in code units is its length in bytes. *)
Definition ascii_string (s : jsstring) : Prop :=
  Forall (fun c => 0 <= c < 128) s.

(** What the label loop of [build_query] builds for one part when its length
    fits a byte. *)
Definition encoded_label (part : jsstring) : buffer :=
  match part with
  | [] => []
  | _ => byte_of_Z (str_length part) :: Buffer_from part
  end.

(** The four records of one device: the PTR record of the queried service
    naming [instance], the SRV and TXT records of [instance], and the A
    record of the SRV target. *)
Definition describes_one_device (full_service_query instance target ip : jsstring)
    (port : Z) (txts : txt_object) (ptr srv txt a : record) : Prop :=
  (r_type ptr = 12 /\ r_name ptr = full_service_query
   /\ r_rdata ptr = RName instance)
  /\ (r_type srv = 33 /\ r_name srv = instance
      /\ exists priority weight, r_rdata srv = RSrv priority weight port target)
  /\ (r_type txt = 16 /\ r_name txt = instance /\ r_rdata txt = RTxt txts)
  /\ (r_type a = 1 /\ r_name a = target /\ r_rdata a = RAddr ip).

(** All the orders in which the elements of a list can arrive. *)
Fixpoint insert_everywhere {A : Type} (x : A) (l : list A) : list (list A) :=
  match l with
  | [] => [[x]]
  | y :: l' => (x :: l) :: map (cons y) (insert_everywhere x l')
  end.

Fixpoint arrival_orders {A : Type} (l : list A) : list (list A) :=
  match l with
  | [] => [[]]
  | x :: l' => flat_map (insert_everywhere x) (arrival_orders l')
  end.



(** A callback that stores what it is given the way the search wrappers do. *)
Definition remembers (cb : callback search_state) : Prop :=
  forall d st, unique_services (fst (cb d st)) = remember d (unique_services st).

(** A label [read_name] decodes back: not empty, at most 63 units, ASCII. *)
Definition plain_label (p : jsstring) : Prop :=
  p <> [] /\ str_length p <= 63 /\ ascii_string p.

(** The correlator holds nothing, or the bare entry of [instance]. *)
Definition holds_at_most (instance : jsstring) (st : listener_state) : Prop :=
  services st = []
  \/ services st = [(instance, mk_service instance None None None None)].

(** No byte of the buffer has its two high bits set: nothing in it can be
    read as a compression pointer. *)
Definition pointer_free (buf : buffer) : Prop :=
  Forall (fun b => Z.land (byte_val b) 192 <> 192) buf.


(** A label [build_query] encodes: [if (!part) continue;] skips the others. *)
Definition non_empty (part : jsstring) : bool :=
  match part with [] => false | _ => true end.

(** The number a string of decimal digits writes. *)
Definition decimal_value (s : jsstring) : Z :=
  fold_left (fun acc c => 10 * acc + (c - 48)) s 0.

(** The object [services] holds one entry per key, each under its own name. *)
Definition services_ok (s : services_object) : Prop :=
  NoDup (map fst s) /\ Forall (fun kv => s_name (snd kv) = fst kv) s.

(** [l'] is [l] with more at its end. *)
Definition grows_from {A : Type} (l l' : list A) : Prop :=
  exists extra, l' = l ++ extra.

(** The entry is under the queried service. *)
Definition in_domain (full_service_query : jsstring) (kv : jsstring * service) : bool :=
  is_smart_ip_service (s_name (snd kv)) full_service_query.


(** Every array of [h] is in [h'] at the same reference, with the elements it
    had followed by any it has gained. *)
Definition arrays_grow (h h' : heap) : Prop :=
  forall ref, grows_from (deref h ref) (deref h' ref).

(** An entry that is not under the queried service is as the PTR branch made
    it: it has a name and nothing else. *)
Definition bare_outside (full_service_query : jsstring) (s : services_object)
    : Prop :=
  Forall (fun kv => in_domain full_service_query kv = false ->
                    snd kv = mk_service (fst kv) None None None None) s.




(* ------------------------------------------------------------------ *)
(** *** Example datagrams *)

Definition bytes (l : list Z) : buffer := map byte_of_Z l.

(** A length-prefixed ASCII label. *)
Definition label (s : string) : buffer :=
  byte_of_Z (Z.of_nat (String.length s)) :: bytes (js s).

(** A response header with [an] answers and no question. *)
Definition response_header (an : Z) : buffer :=
  bytes [0; 0; 132; 0; 0; 0; 0; an; 0; 0; 0; 0].

Definition smart_ip_local : jsstring := js "_smart_ip._tcp.local".
Definition device_1 : jsstring := js "device-1._smart_ip._tcp.local".
Definition host_local : jsstring := js "host.local".

(** PTR [_smart_ip._tcp.local -> device-1._smart_ip._tcp.local], its owner
    name written in full at offset 12, the instance name at offset 44. *)
Definition ptr_bytes : buffer :=
  label "_smart_ip" ++ label "_tcp" ++ label "local" ++ [x00]
  ++ bytes [0; 12; 0; 1; 0; 0; 0; 120; 0; 11]
  ++ label "device-1" ++ bytes [192; 12].

(** SRV for the instance at offset 44: port 5353, target [host.local]; placed
    at offset 55, its target is at offset 73. *)
Definition srv_bytes : buffer :=
  bytes [192; 44; 0; 33; 0; 1; 0; 0; 0; 120; 0; 13; 0; 0; 0; 0; 20; 233]
  ++ label "host" ++ bytes [192; 27].

(** A for the name at offset 73: 192.168.1.50. *)
Definition a_bytes : buffer :=
  bytes [192; 73; 0; 1; 0; 1; 0; 0; 0; 120; 0; 4; 192; 168; 1; 50].


Definition ptr_datagram : buffer := response_header 1 ++ ptr_bytes.
Definition full_datagram : buffer :=
  response_header 3 ++ ptr_bytes ++ srv_bytes ++ a_bytes.

(** The full response cut after 60 bytes, inside its second record. *)
Definition truncated_datagram : buffer := firstn 60 full_datagram.

(** A query whose question name is a compression pointer to itself. *)
Definition circular_datagram : buffer :=
  bytes [0; 0; 0; 0; 0; 1; 0; 0; 0; 0; 0; 0; 192; 12; 0; 12; 0; 1].

(** The name [foo] at offset 0, a pointer to it at offset 5, and a pointer to
    that pointer at offset 7. *)
Definition pointer_chain : buffer := label "foo" ++ [x00] ++ bytes [192; 0; 192; 5].

(** The records of the order-independence property, for the default query. *)
Definition ptr_rec : record :=
  mk_record smart_ip_local 12 1 120 11 (RName device_1) 55.
Definition srv_rec : record :=
  mk_record device_1 33 1 120 13 (RSrv 0 0 5353 host_local) 80.
Definition txt_rec : record :=
  mk_record device_1 16 1 120 4 (RTxt [(js "a", TxtString (js "b"))]) 96.
Definition a_rec : record :=
  mk_record host_local 1 1 120 4 (RAddr (js "192.168.1.50")) 112.

(** Options with a function for both callbacks. *)
Definition both_callbacks : search_options :=
  mk_options None None None None (JSFunction 1 None)
             (JSNumber 200%float) (JSFunction 2 None).

Definition negative_timeout : search_options :=
  mk_options None None (Some (js "192.168.1.2")) None
             JSUndefined (JSNumber (-1)%float) JSUndefined.

(** A PTR record of the queried service that names the instance [7]. *)
Definition ptr_rec_7 : record :=
  mk_record smart_ip_local 12 1 120 3 (RName (js "7")) 0.

(** A service name with one label of 256 letters. *)
Definition long_label_options : search_options :=
  mk_options None None None (Some (repeat 97 256)) JSUndefined JSUndefined
             JSUndefined.

(** The PTR record of [ptr_bytes] in a response that uses no pointer: the
    instance name is written in full. *)
Definition plain_ptr_datagram : buffer :=
  response_header 1
  ++ label "_smart_ip" ++ label "_tcp" ++ label "local" ++ [x00]
  ++ bytes [0; 12; 0; 1; 0; 0; 0; 120; 0; 31]
  ++ label "device-1" ++ label "_smart_ip" ++ label "_tcp" ++ label "local"
  ++ [x00].

(** A query for [foo]: a header with one question, and no pointer. *)
Definition foo_question : buffer :=
  bytes [0; 0; 0; 0; 0; 1; 0; 0; 0; 0; 0; 0] ++ label "foo" ++ [x00]
  ++ bytes [0; 12; 0; 1].

(* ================================================================== *)
(** * Properties *)

(** ** Strings and outcomes *)

Lemma str_eqb_refl (s : jsstring) : str_eqb s s = true.
Proof.
  induction s as [|c s IH]; simpl; [reflexivity|].
  now rewrite Z.eqb_refl, IH.
Qed.

Lemma str_eqb_eq (a b : jsstring) : str_eqb a b = true <-> a = b.
Proof.
  split.
  - revert b; induction a as [|x a IH]; intros [|y b] H; simpl in H;
      try reflexivity; try discriminate.
    apply andb_true_iff in H as [Hxy Hab].
    apply Z.eqb_eq in Hxy. f_equal; auto.
  - intros ->. apply str_eqb_refl.
Qed.

Lemma try_wrap_Ret {A : Type} (prefix : string) (m : outcome A) (a : A) :
  try_wrap prefix m = Ret a <-> m = Ret a.
Proof. destruct m; simpl; split; intros H; try discriminate; assumption. Qed.

Lemma byte_val_range (b : byte) : 0 <= byte_val b <= 255.
Proof.
  unfold byte_val. pose proof (Byte.to_N_bounded b). lia.
Qed.

Lemma byte_val_of_Z (z : Z) : 0 <= z <= 255 -> byte_val (byte_of_Z z) = z.
Proof.
  intros Hz. unfold byte_val, byte_of_Z.
  rewrite Z.mod_small by lia.
  destruct (Byte.of_N (Z.to_N z)) as [b|] eqn:E.
  - apply Byte.to_of_N in E. rewrite E. lia.
  - apply Byte.of_N_None_iff in E. lia.
Qed.

(* ================================================================== *)
(** ** [read_name]: pointers *)

(** One iteration of the loop. *)
Lemma read_name_loop_S (fuel : nat) (buf : buffer) (offset : Z)
    (labels : list jsstring) (jumped : bool) (original : Z) :
  read_name_loop (S fuel) buf offset labels jumped original =
  (len <- readUInt8 buf offset ;;
   if len =? 0 then
     Ret (mk_name_result (join_with dot labels)
                         (if jumped then original else offset + 1))
   else if Z.land len 192 =? 192 then
     low <- readUInt8 buf (offset + 1) ;;
     read_name_loop fuel buf (Z.lor (Z.shiftl (Z.land len 63) 8) low) labels true
                    (if jumped then original else offset + 2)
   else
     read_name_loop fuel buf (offset + 1 + len)
                    (labels ++ [toString_utf8 buf (offset + 1) (offset + 1 + len)])
                    jumped original).
Proof. reflexivity. Qed.

(** The name a run of the loop returns does not depend on what it was told
    about earlier jumps; after a jump the offset reported is the one recorded
    at the first jump. *)
Lemma read_name_loop_jumped (fuel : nat) (buf : buffer) :
  forall offset labels jumped original r,
    read_name_loop fuel buf offset labels jumped original = Ret r ->
    forall original',
      read_name_loop fuel buf offset labels true original'
      = Ret (mk_name_result (name r) original').
Proof.
  induction fuel as [|fuel IH]; intros offset labels jumped original r H original';
    [discriminate|].
  rewrite read_name_loop_S in *.
  destruct (readUInt8 buf offset) as [len| |]; cbn [bind] in *; try discriminate.
  destruct (len =? 0).
  - inversion H; subst; reflexivity.
  - destruct (Z.land len 192 =? 192).
    + destruct (readUInt8 buf (offset + 1)) as [low| |]; cbn [bind] in *;
        try discriminate.
      eapply IH; eassumption.
    + eapply IH; eassumption.
Qed.

(** More fuel does not change a result. *)
Lemma read_name_loop_more_fuel (fuel : nat) (buf : buffer) :
  forall offset labels jumped original r,
    read_name_loop fuel buf offset labels jumped original = Ret r ->
    read_name_loop (S fuel) buf offset labels jumped original = Ret r.
Proof.
  induction fuel as [|fuel IH]; intros offset labels jumped original r H;
    [discriminate|].
  rewrite read_name_loop_S in H. rewrite read_name_loop_S.
  destruct (readUInt8 buf offset) as [len| |]; cbn [bind] in *; try discriminate.
  destruct (len =? 0); [assumption|].
  destruct (Z.land len 192 =? 192).
  - destruct (readUInt8 buf (offset + 1)) as [low| |]; cbn [bind] in *;
      try discriminate.
    apply IH; assumption.
  - apply IH; assumption.
Qed.

(** C4, as the code has it.  When the name at [offset] is a compression
    pointer (a first byte with its two high bits set, the 14 remaining bits
    and the next byte giving [target]) and the name at [target] decodes to
    [r], then [read_name] at [offset] returns the same name string, and
    [read_bytes] is [offset + 2], the absolute position just after the
    pointer: two bytes were consumed, but the value reported is the position,
    not the count. *)
Theorem read_name_pointer (fuel : nat) (buf : buffer) (offset first low target : Z)
    (r : name_result) :
  readUInt8 buf offset = Ret first ->
  Z.land first 192 = 192 ->
  readUInt8 buf (offset + 1) = Ret low ->
  target = Z.lor (Z.shiftl (Z.land first 63) 8) low ->
  read_name fuel buf target = Ret r ->
  read_name (S fuel) buf offset = Ret (mk_name_result (name r) (offset + 2))
  /\ read_bytes (mk_name_result (name r) (offset + 2)) - offset = 2.
Proof.
  intros Hfirst Hbits Hlow Htarget Hr.
  split; [|simpl; lia].
  unfold read_name in *. apply try_wrap_Ret in Hr. apply try_wrap_Ret.
  rewrite read_name_loop_S, Hfirst. cbn [bind].
  assert (Hnz : (first =? 0) = false).
  { apply Z.eqb_neq. intros ->. discriminate Hbits. }
  rewrite Hnz. apply Z.eqb_eq in Hbits. rewrite Hbits.
  rewrite Hlow. cbn [bind]. rewrite <- Htarget.
  eapply read_name_loop_jumped. eassumption.
Qed.

Lemma read_name_pointer_witness :
  read_name 3 pointer_chain 5 = Ret (mk_name_result (js "foo") 7)
  /\ read_bytes (mk_name_result (js "foo") 7) - 5 = 2.
Proof.
  apply (read_name_pointer 2 pointer_chain 5 192 0 0 (mk_name_result (js "foo") 5));
    reflexivity.
Defined.

(** C4 as stated fails: the name at offset 5 of [pointer_chain] is a pointer to
    the earlier name [foo] at offset 0; [read_name] returns the same string,
    but reports 7, not 2. *)
Lemma read_name_pointer_reports_position :
  exists target_result pointer_result,
    read_name 3 pointer_chain 0 = Ret target_result
    /\ read_name 3 pointer_chain 5 = Ret pointer_result
    /\ name pointer_result = name target_result
    /\ read_bytes pointer_result = 7
    /\ read_bytes pointer_result <> 2.
Proof.
  exists (mk_name_result (js "foo") 5), (mk_name_result (js "foo") 7).
  repeat split; try reflexivity. simpl. discriminate.
Qed.

(* ================================================================== *)
(** ** [read_name]: pointer chains and loops *)

Lemma read_name_loop_circular (fuel : nat) :
  forall jumped original,
    read_name_loop fuel circular_datagram 12 [] jumped original = OutOfFuel.
Proof.
  induction fuel as [|fuel IH]; intros jumped original; [reflexivity|].
  change (read_name_loop (S fuel) circular_datagram 12 [] jumped original)
    with (read_name_loop fuel circular_datagram 12 [] true
            (if jumped then original else 14)).
  apply IH.
Qed.

Lemma parse_dns_message_circular (fuel : nat) :
  parse_dns_message fuel circular_datagram = OutOfFuel.
Proof.
  unfold parse_dns_message.
  change (readUInt16BE circular_datagram 0) with (Ret 0).
  change (readUInt16BE circular_datagram 2) with (Ret 0).
  change (readUInt16BE circular_datagram 4) with (Ret 1).
  change (readUInt16BE circular_datagram 6) with (Ret 0).
  change (readUInt16BE circular_datagram 8) with (Ret 0).
  change (readUInt16BE circular_datagram 10) with (Ret 0).
  cbn [bind]. change (Z.to_nat 1) with 1%nat. cbn [skip_questions].
  unfold read_name. rewrite read_name_loop_circular. reflexivity.
Qed.

(** C3 fails on the code.  [read_name] has no bound on the pointers it follows:
    the pointer to a pointer at offset 7 of [pointer_chain] is decoded through
    both jumps; and on [circular_datagram], whose question name points to
    itself, the loop never ends, whatever the number of iterations allowed, so
    the message handler does not return and neither search function reaches
    its timer callback. *)
Theorem read_name_circular_pointer_never_returns :
  read_name 4 pointer_chain 7 = Ret (mk_name_result (js "foo") 9)
  /\ (forall fuel, read_name fuel circular_datagram 12 = OutOfFuel)
  /\ (forall fuel options,
        run_v0 fuel options [Listening true; Datagram circular_datagram] = OutOfFuel
        /\ run_v1 fuel options [Listening true; Datagram circular_datagram] = OutOfFuel).
Proof.
  split; [reflexivity|]. split.
  - intros fuel. unfold read_name. now rewrite read_name_loop_circular.
  - intros fuel options. split.
    + unfold run_v0, search_mdns_services, start_mdns_listener.
      cbn [bind fst snd started_listener started_calls on_events on_event
           new_session socket_open correlator search].
      unfold on_message. rewrite parse_dns_message_circular. reflexivity.
    + unfold run_v1, search_mdns_servicesmv1, start_mdns_listener.
      cbn [bind fst snd started_listener started_calls on_events on_event
           new_session socket_open correlator search].
      unfold on_message. rewrite parse_dns_message_circular. reflexivity.
Qed.

(* ================================================================== *)
(** ** [build_query]: label lengths *)

Lemma split_on_not_nil (sep : Z) (s : jsstring) : split_on sep s <> [].
Proof.
  destruct s as [|c s]; simpl; [discriminate|].
  destruct (c =? sep); [discriminate|].
  destruct (split_on sep s); discriminate.
Qed.

Lemma split_on_app (sep : Z) (a b : jsstring) :
  split_on sep (a ++ sep :: b) = split_on sep a ++ split_on sep b.
Proof.
  induction a as [|c a IH]; simpl.
  - now rewrite Z.eqb_refl.
  - destruct (c =? sep); [now rewrite IH|].
    rewrite IH. pose proof (split_on_not_nil sep a) as Hne.
    destruct (split_on sep a); [contradiction|reflexivity].
Qed.

(** The labels of the full query name: those of the service name, then
    [local]. *)
Lemma split_full_service_query (service_query : jsstring) :
  split_on dot (service_query ++ local_suffix)
  = split_on dot service_query ++ [js "local"].
Proof.
  change local_suffix with (dot :: js "local").
  now rewrite split_on_app.
Qed.

Lemma writeUInt8_alloc1_ok (v : Z) :
  0 <= v <= 255 -> writeUInt8_alloc1 v = Ret [byte_of_Z v].
Proof.
  intros H. unfold writeUInt8_alloc1.
  replace (0 <=? v) with true by (symmetry; apply Z.leb_le; lia).
  replace (v <=? 255) with true by (symmetry; apply Z.leb_le; lia).
  reflexivity.
Qed.

Lemma writeUInt8_alloc1_over (v : Z) :
  255 < v -> writeUInt8_alloc1 v = Throw ERR_OUT_OF_RANGE.
Proof.
  intros H. unfold writeUInt8_alloc1.
  replace (v <=? 255) with false by (symmetry; apply Z.leb_gt; lia).
  now rewrite andb_false_r.
Qed.

Lemma str_length_nonneg (s : jsstring) : 0 <= str_length s.
Proof. unfold str_length. lia. Qed.

Lemma qname_labels_ok (parts : list jsstring) :
  Forall (fun part => str_length part <= 255) parts ->
  qname_labels parts = Ret (List.concat (map encoded_label parts)).
Proof.
  induction 1 as [|part parts Hpart _ IH]; [reflexivity|].
  destruct part as [|c part]; [exact IH|].
  cbn [qname_labels]. rewrite writeUInt8_alloc1_ok
    by (split; [apply str_length_nonneg|exact Hpart]).
  cbn [bind]. rewrite IH. reflexivity.
Qed.

Lemma qname_labels_over (parts : list jsstring) :
  Exists (fun part => 255 < str_length part) parts ->
  qname_labels parts = Throw ERR_OUT_OF_RANGE.
Proof.
  induction parts as [|part parts IH]; intros H; [inversion H|].
  destruct (Z_lt_le_dec 255 (str_length part)) as [Hlong|Hshort].
  - destruct part as [|c part]; [discriminate Hlong|].
    cbn [qname_labels]. now rewrite writeUInt8_alloc1_over.
  - assert (Htail : Exists (fun part => 255 < str_length part) parts).
    { inversion H; subst; [lia|assumption]. }
    destruct part as [|c part]; [exact (IH Htail)|].
    cbn [qname_labels]. rewrite writeUInt8_alloc1_ok
      by (split; [apply str_length_nonneg|exact Hshort]).
    cbn [bind]. now rewrite (IH Htail).
Qed.

Lemma Exists_long_or_Forall_short (parts : list jsstring) :
  Exists (fun part => 255 < str_length part) parts
  \/ Forall (fun part => str_length part <= 255) parts.
Proof.
  induction parts as [|part parts [IH|IH]].
  - right; constructor.
  - left; now constructor 2.
  - destruct (Z_lt_le_dec 255 (str_length part)).
    + left; now constructor 1.
    + right; now constructor.
Qed.

(** C8, as the code has it.  [build_query] has no check of its own on label
    lengths; the one limit is that of the length byte.  It fails, with an
    error prefixed [Error building query], exactly when a label of the service
    name is longer than 255 code units, and returns a message for every other
    name, labels of 64 to 255 units included. *)
Theorem build_query_fails_iff_label_over_255 (service_query : jsstring) :
  (build_query service_query = Throw (Wrapped "Error building query" ERR_OUT_OF_RANGE)
   <-> Exists (fun part => 255 < str_length part) (split_on dot service_query))
  /\ ((exists q, build_query service_query = Ret q)
      <-> Forall (fun part => str_length part <= 255) (split_on dot service_query)).
Proof.
  assert (Hlong : Exists (fun part => 255 < str_length part)
                         (split_on dot service_query) ->
                  build_query service_query
                  = Throw (Wrapped "Error building query" ERR_OUT_OF_RANGE)).
  { intros H. unfold build_query. cbv zeta.
    rewrite split_full_service_query, qname_labels_over; [reflexivity|].
    apply Exists_app. now left. }
  assert (Hshort : Forall (fun part => str_length part <= 255)
                          (split_on dot service_query) ->
                   exists q, build_query service_query = Ret q).
  { intros H. unfold build_query. cbv zeta.
    rewrite split_full_service_query, qname_labels_ok.
    - cbn [bind try_wrap]. eexists; reflexivity.
    - apply Forall_app. split; [exact H|].
      constructor; [|constructor]. vm_compute. discriminate. }
  split; split; try assumption.
  - intros E.
    destruct (Exists_long_or_Forall_short (split_on dot service_query)) as [H|H];
      [exact H|].
    destruct (Hshort H) as [q Hq]. rewrite Hq in E. discriminate.
  - intros [q Hq].
    destruct (Exists_long_or_Forall_short (split_on dot service_query)) as [H|H];
      [|exact H].
    rewrite (Hlong H) in Hq. discriminate.
Qed.

(** C8 as stated fails: a service name that is one label of 64 bytes is
    encoded, with 64 as its length byte, and no error is raised. *)
Lemma build_query_accepts_64_byte_label :
  exists q,
    build_query (repeat 97 64) = Ret q
    /\ readUInt8 q 12 = Ret 64
    /\ buf_length q = 12 + (1 + 64) + (1 + 5) + 1 + 4.
Proof.
  eexists. split; [vm_compute; reflexivity|]. split; reflexivity.
Qed.

(* ================================================================== *)
(** ** [build_query] and [read_name]: the round trip *)

(** C9 fails on the code for a label that is not ASCII.  [build_query] writes
    [part.length], a count of UTF-16 code units, as the length byte, and then
    the UTF-8 bytes of the label, which are more.  For the one-letter service
    name U+00E9 the question name is [01 c3 a9 05 l o c a l 00]: the length
    byte says 1 for a label of 2 bytes, and [read_name] at offset 12 never
    returns a name: it takes [a9] for the next length and runs past the end
    of the message. *)
Theorem build_query_counts_units_not_bytes :
  exists q,
    build_query [233] = Ret q
    /\ slice q 12 22 = bytes [1; 195; 169; 5; 108; 111; 99; 97; 108; 0]
    /\ Buffer_from [233] = bytes [195; 169]
    /\ (forall fuel r, read_name fuel q 12 <> Ret r)
    /\ read_name 3 q 12
       = Throw (Wrapped "Error reading name from buffer" ERR_OUT_OF_RANGE).
Proof.
  eexists. split; [vm_compute; reflexivity|].
  repeat split; try reflexivity.
  intros fuel r. destruct fuel as [|[|[|fuel]]]; vm_compute; discriminate.
Qed.

(** *** ASCII names *)

Lemma join_split (sep : Z) (s : jsstring) : join_with sep (split_on sep s) = s.
Proof.
  induction s as [|c s IH]; [reflexivity|].
  cbn [split_on]. pose proof (split_on_not_nil sep s) as Hne.
  destruct (c =? sep) eqn:E.
  - apply Z.eqb_eq in E. subst c.
    destruct (split_on sep s) as [|p ps]; [contradiction|].
    cbn [join_with app] in *. now rewrite IH.
  - destruct (split_on sep s) as [|p ps]; [contradiction|].
    destruct ps as [|q ps]; cbn [join_with app] in *; now rewrite <- IH.
Qed.

Lemma split_ascii (sep : Z) (s : jsstring) :
  ascii_string s -> Forall ascii_string (split_on sep s).
Proof.
  induction 1 as [|c s Hc _ IH]; cbn [split_on].
  - repeat constructor.
  - destruct (c =? sep); [constructor; [constructor|exact IH]|].
    destruct (split_on sep s) as [|p ps];
      [constructor; [constructor; [exact Hc|constructor]|constructor]|].
    inversion IH; subst. constructor; [constructor; assumption|assumption].
Qed.

Lemma Buffer_from_ascii (s : jsstring) :
  ascii_string s -> Buffer_from s = map byte_of_Z s.
Proof.
  induction 1 as [|c s Hc _ IH]; [reflexivity|].
  cbn [Buffer_from map]. unfold is_high_surrogate, is_low_surrogate.
  replace (55296 <=? c) with false by (symmetry; apply Z.leb_gt; lia).
  replace (56320 <=? c) with false by (symmetry; apply Z.leb_gt; lia).
  cbn [andb]. unfold utf8_of_code_point.
  replace (c <? 128) with true by (symmetry; apply Z.ltb_lt; lia).
  now rewrite IH.
Qed.

Lemma utf8_decode_ascii (s : jsstring) :
  ascii_string s -> utf8_decode None (map byte_of_Z s) = s.
Proof.
  induction 1 as [|c s Hc _ IH]; [reflexivity|].
  cbn [map utf8_decode]. rewrite byte_val_of_Z by lia.
  unfold utf8_lead.
  replace (c <=? 127) with true by (symmetry; apply Z.leb_le; lia).
  cbn [app]. now rewrite IH.
Qed.

Lemma readUInt8_at (pre post : buffer) (b : byte) :
  readUInt8 (pre ++ b :: post) (buf_length pre) = Ret (byte_val b).
Proof.
  unfold readUInt8, buf_length. rewrite length_app. cbn [List.length].
  replace (0 <=? Z.of_nat (List.length pre)) with true
    by (symmetry; apply Z.leb_le; lia).
  replace (Z.of_nat (List.length pre)
           <? Z.of_nat (List.length pre + S (List.length post))) with true
    by (symmetry; apply Z.ltb_lt; lia).
  cbn [andb]. rewrite Nat2Z.id, nth_middle. reflexivity.
Qed.

Lemma slice_at (pre mid post : buffer) :
  slice (pre ++ mid ++ post) (buf_length pre) (buf_length pre + buf_length mid) = mid.
Proof.
  unfold slice, buf_length.
  replace (Z.of_nat (List.length pre) + Z.of_nat (List.length mid)
           - Z.of_nat (List.length pre)) with (Z.of_nat (List.length mid)) by lia.
  rewrite !Nat2Z.id, skipn_app, skipn_all, Nat.sub_diag. cbn [skipn app].
  rewrite firstn_app, firstn_all, Nat.sub_diag. cbn [firstn]. apply app_nil_r.
Qed.

Lemma toString_label (pre rest : buffer) (lenb : byte) (p : jsstring) :
  ascii_string p ->
  toString_utf8 (pre ++ lenb :: map byte_of_Z p ++ rest)
                (buf_length pre + 1) (buf_length pre + 1 + str_length p) = p.
Proof.
  intros Hascii. unfold toString_utf8.
  replace (pre ++ lenb :: map byte_of_Z p ++ rest)
    with ((pre ++ [lenb]) ++ map byte_of_Z p ++ rest)
    by (rewrite <- app_assoc; reflexivity).
  assert (H1 : buf_length (pre ++ [lenb]) = buf_length pre + 1)
    by (unfold buf_length; rewrite length_app; cbn [List.length]; lia).
  assert (H2 : buf_length (map byte_of_Z p) = str_length p)
    by (unfold buf_length, str_length; now rewrite length_map).
  rewrite <- H1, <- H2, slice_at. now apply utf8_decode_ascii.
Qed.

Lemma land_192_small (v : Z) : 0 <= v < 64 -> Z.land v 192 = 0.
Proof.
  intros Hv.
  assert (E : Z.land v 63 = v).
  { change 63 with (Z.ones 6). rewrite Z.land_ones by lia.
    apply Z.mod_small. simpl. lia. }
  rewrite <- E, <- Z.land_assoc. change (Z.land 63 192) with 0.
  apply Z.land_0_r.
Qed.

Lemma encoded_label_plain (p : jsstring) :
  plain_label p ->
  encoded_label p = byte_of_Z (str_length p) :: map byte_of_Z p
  /\ buf_length (encoded_label p) = 1 + str_length p.
Proof.
  intros [Hne [Hlen Hascii]]. destruct p as [|c p]; [contradiction|].
  unfold encoded_label. rewrite Buffer_from_ascii by assumption.
  split; [reflexivity|].
  unfold buf_length, str_length. cbn [List.length map].
  rewrite length_map. lia.
Qed.

(** The loop of [read_name] on the labels [build_query] wrote. *)
Lemma read_name_loop_labels (parts : list jsstring) (post : buffer) :
  Forall plain_label parts ->
  forall (pre : buffer) (acc : list jsstring) (original : Z) (fuel : nat),
    (List.length parts < fuel)%nat ->
    read_name_loop fuel
      (pre ++ List.concat (map encoded_label parts) ++ x00 :: post)
      (buf_length pre) acc false original
    = Ret (mk_name_result
             (join_with dot (acc ++ parts))
             (buf_length pre
              + buf_length (List.concat (map encoded_label parts)) + 1)).
Proof.
  induction 1 as [|p parts Hp _ IH]; intros pre acc original fuel Hfuel;
    (destruct fuel as [|fuel]; [simpl in Hfuel; lia|]);
    rewrite read_name_loop_S.
  - cbn [map List.concat app]. rewrite readUInt8_at. cbn [bind].
    change (byte_val x00 =? 0) with true. cbn iota.
    rewrite app_nil_r. change (buf_length []) with 0.
    now rewrite Z.add_0_r.
  - destruct (encoded_label_plain p Hp) as [Henc Hlen].
    destruct Hp as [Hne [Hshort Hascii]].
    assert (Hpos : 0 < str_length p).
    { destruct p; [contradiction|]. unfold str_length. cbn [List.length]. lia. }
    cbn [map List.concat]. rewrite Henc. cbn [app].
    rewrite readUInt8_at, byte_val_of_Z by lia. cbn [bind].
    replace (str_length p =? 0) with false by (symmetry; apply Z.eqb_neq; lia).
    rewrite land_192_small by lia. change (0 =? 192) with false. cbn iota.
    rewrite <- (app_assoc (map byte_of_Z p)).
    rewrite toString_label by assumption.
    replace (pre ++ byte_of_Z (str_length p)
                 :: map byte_of_Z p
                    ++ List.concat (map encoded_label parts) ++ x00 :: post)
      with ((pre ++ encoded_label p)
            ++ List.concat (map encoded_label parts) ++ x00 :: post)
      by (rewrite Henc, <- app_assoc; reflexivity).
    replace (buf_length pre + 1 + str_length p)
      with (buf_length (pre ++ encoded_label p))
      by (unfold buf_length in *; rewrite length_app; lia).
    rewrite IH by (cbn [List.length] in Hfuel; lia).
    rewrite <- app_assoc. cbn [app]. f_equal. f_equal.
    unfold buf_length in *. rewrite !length_app, Henc.
    cbn [List.length] in *. rewrite length_app. lia.
Qed.

(** X1: the round trip of C9 where the code does achieve it.  For a service name
    in ASCII whose labels are not empty and at most 63
    bytes long, the question name of the query decodes to the full query
    name, and the offset reported is that of the question's type field. *)
Theorem build_query_read_name_ascii (service_query : jsstring) :
  ascii_string service_query ->
  Forall (fun part => part <> [] /\ str_length part <= 63)
         (split_on dot service_query) ->
  exists q,
    build_query service_query = Ret q
    /\ read_name (List.length (split_on dot service_query) + 2) q 12
       = Ret (mk_name_result (service_query ++ local_suffix) (buf_length q - 4)).
Proof.
  intros Hascii Hlabels.
  assert (Hparts : Forall plain_label (split_on dot service_query ++ [js "local"])).
  { apply Forall_app. split.
    - pose proof (split_ascii dot _ Hascii) as Hsplit.
      rewrite Forall_forall in *. intros p Hin.
      destruct (Hlabels p Hin) as [Hne Hlen]. repeat split; auto.
    - constructor; [|constructor]. repeat split.
      + discriminate.
      + vm_compute. discriminate.
      + change (js "local") with [108; 111; 99; 97; 108].
        repeat (constructor; [lia|]). constructor. }
  unfold build_query. cbv zeta.
  rewrite split_full_service_query, qname_labels_ok.
  2:{ eapply Forall_impl; [|exact Hparts]. intros p [_ [Hlen _]]. simpl. lia. }
  cbn [bind try_wrap]. eexists. split; [reflexivity|].
  unfold read_name. apply try_wrap_Ret.
  set (header := u16be 0 ++ u16be 0 ++ u16be 1 ++ u16be 0 ++ u16be 0 ++ u16be 0).
  set (labels := List.concat (map encoded_label
                                  (split_on dot service_query ++ [js "local"]))).
  replace (header ++ (labels ++ [x00]) ++ u16be 12 ++ u16be 1)
    with (header ++ labels ++ x00 :: u16be 12 ++ u16be 1)
    by (now rewrite <- (app_assoc labels)).
  change 12 with (buf_length header) at 1 2.
  unfold labels. rewrite read_name_loop_labels.
  - cbn [app]. rewrite <- split_full_service_query, join_split.
    f_equal. f_equal. unfold buf_length. rewrite !length_app.
    change (List.length (x00 :: u16be 12 ++ u16be 1)) with 5%nat. lia.
  - exact Hparts.
  - rewrite length_app. cbn [List.length]. lia.
Qed.

(* ================================================================== *)
(** ** [parse_record]: the TXT loop and the payload shapes *)

Lemma readUInt8_range (buf : buffer) (offset v : Z) :
  readUInt8 buf offset = Ret v -> 0 <= v <= 255.
Proof.
  unfold readUInt8. destruct (_ && _); [|discriminate].
  intros H. inversion H. apply byte_val_range.
Qed.

(** The TXT loop ends within [stop - offset] iterations. *)
Lemma txt_entries_enough (n : nat) (buf : buffer) (stop : Z) :
  forall offset txts,
    stop - offset <= Z.of_nat n ->
    txt_entries n buf offset stop txts <> OutOfFuel.
Proof.
  induction n as [|n IH]; intros offset txts Hn.
  - simpl. destruct (offset <? stop) eqn:E; [|discriminate].
    apply Z.ltb_lt in E. lia.
  - cbn [txt_entries]. destruct (offset <? stop) eqn:E; [|discriminate].
    destruct (readUInt8 buf offset) as [txt_len| |] eqn:R; cbn [bind];
      try discriminate.
    + apply readUInt8_range in R.
      destruct (indexOf equals_sign _); apply IH; lia.
    + unfold readUInt8 in R. destruct (_ && _) in R; discriminate.
Qed.

(** The budget [parse_record] gives the TXT loop is always enough. *)
Lemma txt_loop_of_parse_record_ends (buf : buffer) (offset rdlength : Z) :
  txt_entries (Z.to_nat rdlength) buf offset (offset + rdlength) [] <> OutOfFuel.
Proof. apply txt_entries_enough. lia. Qed.

Ltac step_bind H :=
  match type of H with
  | bind ?m _ = Ret _ =>
      let E := fresh "E" in
      destruct m eqn:E; cbn [bind] in H; try discriminate H
  end.

(** X6: [parse_record] pairs every record type with the payload of that type:
    a name for PTR, the four SRV fields for SRV, an object for TXT, a string
    for A, and the raw bytes for every other type. *)
Lemma parse_record_shape (fuel : nat) (buf : buffer) (offset : Z) (r : record) :
  parse_record fuel buf offset = Ret r -> shape_ok r.
Proof.
  unfold parse_record. intros H. apply try_wrap_Ret in H.
  do 5 step_bind H.
  destruct (_ =? 12) eqn:T12.
  { step_bind H. inversion H; subst. apply Z.eqb_eq in T12. exact T12. }
  destruct (_ =? 33) eqn:T33.
  { do 4 step_bind H. inversion H; subst. apply Z.eqb_eq in T33. exact T33. }
  destruct (_ =? 16) eqn:T16.
  { step_bind H. destruct a4 as [txts off]. inversion H; subst.
    apply Z.eqb_eq in T16. exact T16. }
  destruct (_ =? 1) eqn:T1.
  { step_bind H. inversion H; subst. apply Z.eqb_eq in T1. exact T1. }
  inversion H; subst. unfold shape_ok. cbn [r_rdata r_type].
  apply Z.eqb_neq in T12, T33, T16, T1. auto.
Qed.

(* ================================================================== *)
(** ** The message handler: malformed datagrams *)

(** X11: a datagram shorter than the 12-byte header is one the parser throws
    on, whatever it holds. *)
Lemma truncated_header_throws (fuel : nat) (msg : buffer) :
  buf_length msg < 12 -> exists e, parse_dns_message fuel msg = Throw e.
Proof.
  intros Hshort. unfold parse_dns_message.
  assert (Hread : forall k, readUInt16BE msg k <> OutOfFuel).
  { intros k. unfold readUInt16BE. destruct (_ && _); discriminate. }
  assert (Hlast : readUInt16BE msg 10 = Throw ERR_OUT_OF_RANGE).
  { unfold readUInt16BE.
    replace (10 + 2 <=? buf_length msg) with false
      by (symmetry; apply Z.leb_gt; lia).
    now rewrite andb_false_r. }
  rewrite Hlast.
  destruct (readUInt16BE msg 0) eqn:E0; cbn [bind try_wrap];
    [|eexists; reflexivity|now apply Hread in E0].
  destruct (readUInt16BE msg 2) eqn:E2; cbn [bind try_wrap];
    [|eexists; reflexivity|now apply Hread in E2].
  destruct (readUInt16BE msg 4) eqn:E4; cbn [bind try_wrap];
    [|eexists; reflexivity|now apply Hread in E4].
  destruct (readUInt16BE msg 6) eqn:E6; cbn [bind try_wrap];
    [|eexists; reflexivity|now apply Hread in E6].
  destruct (readUInt16BE msg 8) eqn:E8; cbn [bind try_wrap];
    [|eexists; reflexivity|now apply Hread in E8].
  eexists; reflexivity.
Qed.

(** C10.  When [parse_dns_message] throws on a datagram, the handler returns
    with the correlator (the services and their address arrays) and the
    unique-device map exactly as they were: the whole session state is
    unchanged, and the events that follow are handled as if the datagram had
    not arrived. *)
Theorem malformed_datagram_changes_nothing (fuel : nat) (l : listener)
    (cb : callback search_state) (s : session) (msg : buffer) (e : js_error) :
  parse_dns_message fuel msg = Throw e ->
  on_message fuel (full_service_query l) (Some cb) msg (correlator s) (search s)
  = Ret (correlator s, search s)
  /\ on_event fuel l cb s (Datagram msg) = Ret s
  /\ forall evs, on_events fuel l cb s (Datagram msg :: evs)
                 = on_events fuel l cb s evs.
Proof.
  intros Hparse.
  assert (Hmsg : on_message fuel (full_service_query l) (Some cb) msg
                            (correlator s) (search s)
                 = Ret (correlator s, search s)).
  { unfold on_message. now rewrite Hparse. }
  assert (Hev : on_event fuel l cb s (Datagram msg) = Ret s).
  { unfold on_event. destruct (socket_open s) eqn:Hopen; [|reflexivity].
    rewrite Hmsg. cbn [bind fst snd]. destruct s; simpl in *. now subst. }
  split; [exact Hmsg|]. split; [exact Hev|].
  intros evs. cbn [on_events]. now rewrite Hev.
Qed.

Lemma malformed_datagram_changes_nothing_witness :
  let l := listener_of no_options in
  let cb := on_service_found_v1 JSUndefined in
  let s := new_session [] in
  on_message 10 (full_service_query l) (Some cb) truncated_datagram
             (correlator s) (search s)
  = Ret (correlator s, search s)
  /\ on_event 10 l cb s (Datagram truncated_datagram) = Ret s
  /\ forall evs, on_events 10 l cb s (Datagram truncated_datagram :: evs)
                 = on_events 10 l cb s evs.
Proof.
  intros l cb s.
  apply (malformed_datagram_changes_nothing 10 l cb s truncated_datagram
           (Wrapped "Error parsing DNS message"
              (Wrapped "Error parsing record" ERR_OUT_OF_RANGE))).
  vm_compute. reflexivity.
Defined.

(* ================================================================== *)
(** ** The correlator: one device, every arrival order *)

Lemma insert_everywhere_complete {A : Type} (x : A) (l1 l2 : list A) :
  In (l1 ++ x :: l2) (insert_everywhere x (l1 ++ l2)).
Proof.
  induction l1 as [|y l1 IH]; simpl.
  - destruct l2; simpl; auto.
  - right. apply in_map. exact IH.
Qed.

Lemma arrival_orders_complete {A : Type} (l' : list A) :
  forall l, Permutation l l' -> In l (arrival_orders l').
Proof.
  induction l' as [|x l' IH]; intros l Hperm.
  - apply Permutation_sym, Permutation_nil in Hperm. subst. simpl. auto.
  - assert (Hin : In x l).
    { eapply Permutation_in; [apply Permutation_sym; exact Hperm|]. now left. }
    apply in_split in Hin as [l1 [l2 ->]].
    simpl. apply in_flat_map. exists (l1 ++ l2). split.
    + apply IH. eapply Permutation_cons_inv with (a := x).
      etransitivity; [|exact Hperm]. apply Permutation_middle.
    + apply insert_everywhere_complete.
Qed.

Lemma endsWith_app (s suffix : jsstring) :
  endsWith s suffix = true -> exists pre, s = pre ++ suffix.
Proof.
  unfold endsWith. intros H. apply andb_true_iff in H as [_ H].
  apply str_eqb_eq in H.
  remember (List.length s - List.length suffix)%nat as n.
  exists (firstn n s). rewrite <- H. symmetry. apply firstn_skipn.
Qed.

Lemma smart_name_ends_in_l (name service_query : jsstring) :
  is_smart_ip_service name (service_query ++ local_suffix) = true ->
  exists pre, name = pre ++ [108].
Proof.
  unfold is_smart_ip_service. intros H.
  change local_suffix with (js ".loca" ++ [108]) in H.
  apply orb_true_iff in H as [H|H].
  - apply str_eqb_eq in H. subst. exists (service_query ++ js ".loca").
    now rewrite app_assoc.
  - apply endsWith_app in H as [pre ->].
    exists (pre ++ dot :: service_query ++ js ".loca").
    rewrite <- app_assoc. simpl. now rewrite <- app_assoc.
Qed.

Lemma smart_name_not_inherited (name service_query : jsstring) :
  is_smart_ip_service name (service_query ++ local_suffix) = true ->
  existsb (str_eqb name) object_prototype_keys = false.
Proof.
  intros H. apply smart_name_ends_in_l in H as [pre ->].
  apply not_true_is_false. intros H.
  apply existsb_exists in H as [k [Hin Hk]].
  apply str_eqb_eq in Hk.
  assert (Hlast : last k 0 = 108) by (rewrite <- Hk; apply last_last).
  simpl in Hin.
  repeat (destruct Hin as [Hin|Hin]; [subst k; vm_compute in Hlast; discriminate|]).
  contradiction.
Qed.

(** The record loop on a correlator that holds at most the entry of one
    instance, record by record. *)
Section OneDevice.

Variables (fq instance target ip : jsstring) (port : Z) (txts : txt_object).
Hypothesis Hsmart : is_smart_ip_service instance fq = true.
Hypothesis Hproto : existsb (str_eqb instance) object_prototype_keys = false.

Lemma truthy_empty : services_truthy [] instance = false.
Proof. exact Hproto. Qed.

Lemma truthy_entry v : services_truthy [(instance, v)] instance = true.
Proof. unfold services_truthy. simpl. now rewrite str_eqb_refl. Qed.

Lemma ptr_on_empty c t l o h :
  process_record fq (mk_listener_state [] h)
                 (mk_record fq 12 c t l (RName instance) o)
  = mk_listener_state [(instance, mk_service instance None None None None)] h.
Proof.
  unfold process_record. cbn [r_type r_name r_rdata services arrays].
  rewrite str_eqb_refl, truthy_empty. reflexivity.
Qed.

Lemma ptr_on_entry c t l o v h :
  process_record fq (mk_listener_state [(instance, v)] h)
                 (mk_record fq 12 c t l (RName instance) o)
  = mk_listener_state [(instance, v)] h.
Proof.
  unfold process_record. cbn [r_type r_name r_rdata services arrays].
  rewrite str_eqb_refl, truthy_entry. reflexivity.
Qed.

Lemma srv_on_empty c t l o pr w h :
  process_record fq (mk_listener_state [] h)
                 (mk_record instance 33 c t l (RSrv pr w port target) o)
  = mk_listener_state
      [(instance, mk_service instance (Some port) (Some target) None None)] h.
Proof.
  unfold process_record, ensure_service.
  cbn [r_type r_name r_rdata services arrays].
  rewrite Hsmart, truthy_empty. cbn. now rewrite str_eqb_refl.
Qed.

Lemma srv_on_entry c t l o pr w n p tg tx ad h :
  process_record fq (mk_listener_state [(instance, mk_service n p tg tx ad)] h)
                 (mk_record instance 33 c t l (RSrv pr w port target) o)
  = mk_listener_state
      [(instance, mk_service n (Some port) (Some target) tx ad)] h.
Proof.
  unfold process_record, ensure_service.
  cbn [r_type r_name r_rdata services arrays].
  rewrite Hsmart, truthy_entry. cbn. now rewrite str_eqb_refl.
Qed.

Lemma txt_on_empty c t l o h :
  process_record fq (mk_listener_state [] h)
                 (mk_record instance 16 c t l (RTxt txts) o)
  = mk_listener_state
      [(instance, mk_service instance None None (Some txts) None)] h.
Proof.
  unfold process_record, ensure_service.
  cbn [r_type r_name r_rdata services arrays].
  rewrite Hsmart, truthy_empty. cbn. now rewrite str_eqb_refl.
Qed.

Lemma txt_on_entry c t l o n p tg tx ad h :
  process_record fq (mk_listener_state [(instance, mk_service n p tg tx ad)] h)
                 (mk_record instance 16 c t l (RTxt txts) o)
  = mk_listener_state [(instance, mk_service n p tg (Some txts) ad)] h.
Proof.
  unfold process_record, ensure_service.
  cbn [r_type r_name r_rdata services arrays].
  rewrite Hsmart, truthy_entry. cbn. now rewrite str_eqb_refl.
Qed.

Lemma a_on_empty c t l o h :
  process_record fq (mk_listener_state [] h) (mk_record target 1 c t l (RAddr ip) o)
  = mk_listener_state [] h.
Proof. reflexivity. Qed.

Lemma a_without_target c t l o n p tx ad h :
  process_record fq (mk_listener_state [(instance, mk_service n p None tx ad)] h)
                 (mk_record target 1 c t l (RAddr ip) o)
  = mk_listener_state [(instance, mk_service n p None tx ad)] h.
Proof. reflexivity. Qed.

Lemma a_with_target c t l o n p tx :
  process_record fq
    (mk_listener_state [(instance, mk_service n p (Some target) tx None)] [])
    (mk_record target 1 c t l (RAddr ip) o)
  = mk_listener_state
      [(instance, mk_service n p (Some target) tx (Some O))] [[ip]].
Proof.
  unfold process_record. cbn [r_type r_name r_rdata services arrays].
  cbn. now rewrite str_eqb_refl.
Qed.

Lemma report_entry p tg tx ad h :
  notify_services (Some collect) fq
                  [(instance, mk_service instance p tg tx ad)] h []
  = (match ad with Some _ => h | None => h ++ [[]] end,
     [mk_device (display_name_of fq instance)
                (match ad with Some ref => ref | None => List.length h end)
                p (match tx with Some x => x | None => [] end)],
     None).
Proof.
  cbn [notify_services s_name s_addresses s_txt s_port].
  rewrite Hsmart. cbn [negb]. destruct ad; reflexivity.
Qed.

End OneDevice.

(** The record loop for an instance that is not under the queried service:
    the SRV and TXT records are passed over, the A record finds no target,
    and nothing is reported. *)
Section OutOfDomain.

Variables (fq instance target ip : jsstring) (port : Z) (txts : txt_object).
Hypothesis Hout : is_smart_ip_service instance fq = false.

Lemma ptr_out_of_domain c t l o st :
  holds_at_most instance st ->
  holds_at_most instance
    (process_record fq st (mk_record fq 12 c t l (RName instance) o)).
Proof.
  intros H. unfold process_record. cbn [r_type r_name r_rdata].
  rewrite str_eqb_refl. cbn [Z.eqb Pos.eqb andb].
  destruct (services_truthy (services st) instance) eqn:E; cbn [negb];
    [exact H|].
  destruct H as [H|H]; rewrite H in *.
  - right. reflexivity.
  - rewrite truthy_entry in E. discriminate.
Qed.

Lemma srv_out_of_domain c t l o pr w st :
  process_record fq st (mk_record instance 33 c t l (RSrv pr w port target) o) = st.
Proof.
  unfold process_record. cbn [r_type r_name r_rdata]. now rewrite Hout.
Qed.

Lemma txt_out_of_domain c t l o st :
  process_record fq st (mk_record instance 16 c t l (RTxt txts) o) = st.
Proof.
  unfold process_record. cbn [r_type r_name r_rdata]. now rewrite Hout.
Qed.

Lemma a_out_of_domain c t l o st :
  holds_at_most instance st ->
  process_record fq st (mk_record target 1 c t l (RAddr ip) o) = st.
Proof.
  intros H. unfold process_record. cbn [r_type r_name r_rdata].
  cbn [Z.eqb Pos.eqb andb]. destruct st as [s h].
  unfold holds_at_most in H. cbn [services arrays] in *.
  destruct H as [-> | ->]; reflexivity.
Qed.

Lemma out_of_domain_not_reported st :
  holds_at_most instance st ->
  notify_services (Some collect) fq (services st) (arrays st) []
  = (arrays st, [], None).
Proof.
  intros [H|H]; rewrite H; cbn [notify_services s_name]; [reflexivity|].
  now rewrite Hout.
Qed.

End OutOfDomain.

(** In the domain one Device is reported, with the address when the SRV
    record came before the A record. *)
Lemma aggregation_in_domain
    (service_query instance target ip : jsstring) (port : Z) (txts : txt_object)
    (ptr srv txt a : record) (arrival : list record) :
  is_smart_ip_service instance (service_query ++ local_suffix) = true ->
  describes_one_device (service_query ++ local_suffix) instance target ip port txts
                       ptr srv txt a ->
  Permutation arrival [ptr; srv; txt; a] ->
  devices_after (service_query ++ local_suffix) arrival
  = [mk_delivered (display_name_of (service_query ++ local_suffix) instance)
                  (if srv_before_a arrival then [ip] else [])
                  (Some port) txts].
Proof.
  intros Hsmart Hdesc Hperm.
  pose proof (smart_name_not_inherited _ _ Hsmart) as Hproto.
  set (fq := service_query ++ local_suffix) in *. clearbody fq.
  destruct Hdesc as [[P1 [P2 P3]] [[S1 [S2 [prio [weight S3]]]]
                     [[T1 [T2 T3]] [A1 [A2 A3]]]]].
  destruct ptr as [pn pt pc pl prl pd po], srv as [sn st sc sl srl sd so],
           txt as [tn tt tc tl trl td to], a as [an at_ ac al arl ad ao].
  cbn [r_type r_name r_rdata] in *. subst.
  apply arrival_orders_complete in Hperm.
  cbn [arrival_orders insert_everywhere flat_map map app In] in Hperm.
  repeat (destruct Hperm as [Hperm|Hperm];
    [subst arrival; unfold devices_after; cbn [fold_left];
     repeat (progress
       rewrite ?(ptr_on_empty _ _ Hproto), ?ptr_on_entry,
               ?(srv_on_empty _ _ _ _ Hsmart Hproto), ?(srv_on_entry _ _ _ _ Hsmart),
               ?(txt_on_empty _ _ _ Hsmart Hproto), ?(txt_on_entry _ _ _ Hsmart),
               ?a_on_empty, ?a_without_target, ?a_with_target);
     cbn [services arrays]; rewrite (report_entry _ _ Hsmart); reflexivity |]).
  contradiction.
Qed.

(** Out of the domain nothing is reported, in any order. *)
Lemma aggregation_out_of_domain (service_query instance target ip : jsstring) (port : Z) (txts : txt_object)
    (ptr srv txt a : record) (arrival : list record) :
  is_smart_ip_service instance (service_query ++ local_suffix) = false ->
  describes_one_device (service_query ++ local_suffix) instance target ip port txts
                       ptr srv txt a ->
  Permutation arrival [ptr; srv; txt; a] ->
  devices_after (service_query ++ local_suffix) arrival = [].
Proof.
  intros Hout Hdesc Hperm.
  set (fq := service_query ++ local_suffix) in *. clearbody fq.
  destruct Hdesc as [[P1 [P2 P3]] [[S1 [S2 [prio [weight S3]]]]
                     [[T1 [T2 T3]] [A1 [A2 A3]]]]].
  destruct ptr as [pn pt pc pl prl pd po], srv as [sn st sc sl srl sd so],
           txt as [tn tt tc tl trl td to], a as [an at_ ac al arl ad ao].
  cbn [r_type r_name r_rdata] in *. subst.
  assert (Hall : forall r, In r arrival ->
                 forall s, holds_at_most instance s ->
                           holds_at_most instance (process_record fq s r)).
  { intros r Hin s Hs.
    apply (Permutation_in _ Hperm) in Hin. cbn [In] in Hin.
    destruct Hin as [<-|[<-|[<-|[<-|[]]]]].
    - now apply ptr_out_of_domain.
    - now rewrite (srv_out_of_domain _ _ _ _ Hout).
    - now rewrite (txt_out_of_domain _ _ _ Hout).
    - now rewrite (a_out_of_domain _ instance). }
  assert (Hfold : forall s, holds_at_most instance s ->
                  holds_at_most instance (fold_left (process_record fq) arrival s)).
  { clear Hperm. induction arrival as [|r rs IH]; intros s Hs; [exact Hs|].
    cbn [fold_left]. apply IH.
    - intros r' Hin. apply Hall. now right.
    - apply Hall; [now left|exact Hs]. }
  unfold devices_after.
  rewrite (out_of_domain_not_reported _ _ Hout); [reflexivity|].
  apply Hfold. left. reflexivity.
Qed.

(** C1, as the code has it.  For the four records of one device, in any
    order of arrival, the same Device is reported but for its addresses: when
    the instance is under the queried service it has the same name, port and
    properties in every order, and its addresses are the address of the A
    record when the SRV record arrived before the A record, and none
    otherwise (an A record is matched against the targets known when it
    arrives and is not kept for later); when the instance is not under the
    queried service, no Device is reported, in any order. *)
Theorem aggregation_depends_on_srv_before_a
    (service_query instance target ip : jsstring) (port : Z) (txts : txt_object)
    (ptr srv txt a : record) (arrival : list record) :
  describes_one_device (service_query ++ local_suffix) instance target ip port txts
                       ptr srv txt a ->
  Permutation arrival [ptr; srv; txt; a] ->
  devices_after (service_query ++ local_suffix) arrival
  = if is_smart_ip_service instance (service_query ++ local_suffix)
    then [mk_delivered (display_name_of (service_query ++ local_suffix) instance)
                       (if srv_before_a arrival then [ip] else [])
                       (Some port) txts]
    else [].
Proof.
  intros Hdesc Hperm.
  destruct (is_smart_ip_service instance (service_query ++ local_suffix)) eqn:E.
  - eapply aggregation_in_domain; eassumption.
  - eapply aggregation_out_of_domain; eassumption.
Qed.

Lemma aggregation_depends_on_srv_before_a_witness :
  devices_after (default_service_query ++ local_suffix)
                [txt_rec; a_rec; ptr_rec; srv_rec]
  = if is_smart_ip_service device_1 (default_service_query ++ local_suffix)
    then [mk_delivered
            (display_name_of (default_service_query ++ local_suffix) device_1)
            (if srv_before_a [txt_rec; a_rec; ptr_rec; srv_rec]
             then [js "192.168.1.50"] else [])
            (Some 5353) [(js "a", TxtString (js "b"))]]
    else [].
Proof.
  apply (aggregation_depends_on_srv_before_a
           default_service_query device_1 host_local (js "192.168.1.50") 5353
           [(js "a", TxtString (js "b"))] ptr_rec srv_rec txt_rec a_rec).
  - repeat split; try reflexivity. exists 0, 0. reflexivity.
  - apply (Permutation_app_comm [txt_rec; a_rec] [ptr_rec; srv_rec]).
Defined.

(** C1 as stated fails: the same four records give the address when the A
    record arrives last and no address when it arrives first. *)
Lemma address_lost_when_a_arrives_first :
  Permutation [a_rec; ptr_rec; srv_rec; txt_rec] [ptr_rec; srv_rec; txt_rec; a_rec]
  /\ map addresses_of
         (devices_after smart_ip_local [ptr_rec; srv_rec; txt_rec; a_rec])
     = [[js "192.168.1.50"]]
  /\ map addresses_of
         (devices_after smart_ip_local [a_rec; ptr_rec; srv_rec; txt_rec])
     = [[]].
Proof.
  split; [|split; reflexivity].
  apply (Permutation_cons_append [ptr_rec; srv_rec; txt_rec] a_rec).
Qed.

(* ================================================================== *)
(** ** The session: handlers return *)

(** No handler throws, and the only way not to return is the loop of
    [read_name]: when the parser comes to an end on every datagram, the
    events leave a session for the timer callback to read. *)
Lemma on_events_returns (fuel : nat) (l : listener) (cb : callback search_state)
    (evs : list socket_event) :
  (forall msg, In (Datagram msg) evs -> parse_dns_message fuel msg <> OutOfFuel) ->
  forall s, exists s', on_events fuel l cb s evs = Ret s'.
Proof.
  induction evs as [|ev evs IH]; intros Hparse s.
  - exists s. reflexivity.
  - assert (Hev : exists s1, on_event fuel l cb s ev = Ret s1).
    { unfold on_event. destruct (socket_open s); [|eexists; reflexivity].
      destruct ev as [joined|msg|]; try (eexists; reflexivity).
      unfold on_message.
      destruct (parse_dns_message fuel msg) eqn:E; cbn [bind];
        try (eexists; reflexivity).
      exfalso. apply (Hparse msg); [now left|exact E]. }
    destruct Hev as [s1 Hs1]. cbn [on_events]. rewrite Hs1. cbn [bind].
    apply IH. intros msg Hin. apply Hparse. now right.
Qed.

(* ================================================================== *)
(** ** The unique-device map of a search *)

Lemma own_property_app {V : Type} (o o' : list (jsstring * V)) (key : jsstring) (v : V) :
  own_property o key = Some v -> own_property (o ++ o') key = Some v.
Proof.
  induction o as [|[k w] o IH]; simpl; [discriminate|].
  destruct (str_eqb k key); auto.
Qed.

Lemma own_property_None {V : Type} (o : list (jsstring * V)) (key : jsstring) :
  own_property o key = None -> ~ In key (map fst o).
Proof.
  induction o as [|[k w] o IH]; simpl; intros H Hin; [contradiction|].
  destruct Hin as [Hin|Hin].
  - subst. now rewrite str_eqb_refl in H.
  - destruct (str_eqb k key); [discriminate|]. now apply IH.
Qed.





Lemma on_service_found_v0_remembers (original : js_value) :
  remembers (on_service_found_v0 original).
Proof.
  intros d st. unfold on_service_found_v0.
  destruct (truthy original); [destruct original|]; reflexivity.
Qed.

Lemma on_service_found_v1_remembers (original : js_value) :
  remembers (on_service_found_v1 original).
Proof.
  intros d st. unfold on_service_found_v1. destruct original; reflexivity.
Qed.

Section Remembering.

Variable cb : callback search_state.
Hypothesis Hcb : remembers cb.





End Remembering.


(** Two PTR records for one instance, in two messages, leave one entry in the
    correlator and one Device in the map of the search. *)
Lemma retransmitted_ptr_one_device (cb : callback search_state)
    (service_query instance : jsstring) (c t l o c' t' l' o' : Z) :
  remembers cb ->
  is_smart_ip_service instance (service_query ++ local_suffix) = true ->
  let fq := service_query ++ local_suffix in
  let first := on_records fq (Some cb) [mk_record fq 12 c t l (RName instance) o]
                          (mk_listener_state [] []) (mk_search_state [] []) in
  let second := on_records fq (Some cb) [mk_record fq 12 c' t' l' (RName instance) o']
                           (fst first) (snd first) in
  map fst (services (fst second)) = [instance]
  /\ unique_services (snd second)
     = [(display_name_of fq instance,
         mk_device (display_name_of fq instance) 0 None [])].
Proof.
  intros Hcb Hsmart fq first second.
  pose proof (smart_name_not_inherited _ _ Hsmart) as Hproto.
  fold fq in Hsmart.
  unfold second, first, on_records. cbn [fold_left].
  rewrite (ptr_on_empty _ _ Hproto). cbn [services arrays notify_services s_name
    s_addresses s_port s_txt alloc]. rewrite Hsmart. cbn [negb List.length app].
  pose proof (Hcb (mk_device (display_name_of fq instance) 0 None [])
                  (mk_search_state [] [])) as H1.
  destruct (cb _ (mk_search_state [] [])) as [st1 err1]. cbn [fst] in H1.
  assert (Hfirst : forall rest : heap * search_state * option js_error,
             rest = ([[]], st1, None) ->
             (let '(h, cb1, _) :=
                match err1 with
                | Some e => ([[]], st1, Some e)
                | None => rest
                end in
              (mk_listener_state
                 [(instance, mk_service instance None None None None)] h, cb1))
             = (mk_listener_state
                  [(instance, mk_service instance None None None None)] [[]], st1))
    by (intros rest ->; destruct err1; reflexivity).
  rewrite Hfirst by reflexivity. cbn [fst snd]. rewrite ptr_on_entry.
  cbn [services arrays notify_services s_name s_addresses s_port s_txt alloc].
  rewrite Hsmart. cbn [negb List.length app].
  pose proof (Hcb (mk_device (display_name_of fq instance) 1 None []) st1) as H2.
  destruct (cb _ st1) as [st2 err2]. cbn [fst] in H2.
  assert (Hu : unique_services st2
               = [(display_name_of fq instance,
                   mk_device (display_name_of fq instance) 0 None [])]).
  { rewrite H2, H1. unfold remember, map_has.
    cbn [own_property d_name negb app unique_services].
    rewrite str_eqb_refl. reflexivity. }
  destruct err2; cbn [fst snd services]; now split.
Qed.


(* ================================================================== *)
(** ** The timer callback: how the result is delivered *)

(** C2, as the code has it.  When the deadline fires on a socket that no error
    has closed and [on_search_complete] is not a function that throws, the
    timer callback of [search_mdns_servicesmv1] returns and resolves the
    promise exactly once, as its last step; when the option is a function it
    has called it before, exactly once and with the list the promise is
    resolved with, so a caller who supplies the callback and consumes the
    promise is served through both channels.  The timer callback of
    [search_mdns_services] never resolves a promise and calls
    [on_search_complete] exactly once when it is a function, and not at all
    when it is falsy.  Every delivery carries the list of the session.  When
    [on_search_complete] throws, nothing catches it: the timer callback of
    either function ends with that error, and the promise is not resolved. *)
Theorem result_channels (options : search_options) (s : session) :
  socket_open s = true ->
  let result := uniqueServiceArray s in
  let complete := opt_on_search_complete options in
  (returns complete = true ->
   (exists before,
      deadline_v1 options s = Ret (before ++ [PromiseResolved result])
      /\ count is_resolution before = 0%nat
      /\ count is_complete_callback before
         = (if is_function complete then 1 else 0)%nat
      /\ (forall f, complete = JSFunction f None ->
                    In (CompleteCallback f result) before)
      /\ Forall (fun d => result_of d = result) before)
   /\ (is_function complete || negb (truthy complete) = true ->
       exists ds,
         deadline_v0 options s = Ret ds
         /\ count is_resolution ds = 0%nat
         /\ count is_complete_callback ds
            = (if is_function complete then 1 else 0)%nat
         /\ (forall f, complete = JSFunction f None ->
                       ds = [CompleteCallback f result])
         /\ Forall (fun d => result_of d = result) ds))
  /\ (forall f e, complete = JSFunction f (Some e) ->
                  deadline_v1 options s = Throw e
                  /\ deadline_v0 options s = Throw e).
Proof.
  intros Hopen result complete. unfold deadline_v1, deadline_v0.
  rewrite Hopen. fold result. fold complete. split.
  - intros Hreturns. split.
    + destruct complete as [| |b|x|str|f [e|]|o] eqn:E; try discriminate Hreturns;
        cbn [bind app is_function].
      6:{ exists [CompleteCallback f result; ConsoleLog result].
          split; [reflexivity|]. split; [reflexivity|]. split; [reflexivity|].
          split; [|repeat constructor].
          intros f' Hf. inversion Hf; subst. now left. }
      all: exists [ConsoleLog result];
        (split; [reflexivity|]); (split; [reflexivity|]);
        (split; [reflexivity|]); (split; [|repeat constructor]);
        intros f' Hf; discriminate Hf.
    + destruct complete as [| |b|x|str|f [e|]|o] eqn:E; try discriminate Hreturns;
        cbn [truthy is_function orb negb]; intros H; try discriminate H.
      * eexists; repeat split; try reflexivity;
          [intros f' Hf; discriminate Hf|repeat constructor].
      * eexists; repeat split; try reflexivity;
          [intros f' Hf; discriminate Hf|repeat constructor].
      * destruct b; [discriminate H|].
        eexists; repeat split; try reflexivity;
          [intros f' Hf; discriminate Hf|repeat constructor].
      * destruct (negb (PrimFloat.eqb x 0) && PrimFloat.eqb x x);
          [discriminate H|].
        eexists; repeat split; try reflexivity;
          [intros f' Hf; discriminate Hf|repeat constructor].
      * destruct (negb (str_eqb str [])); [discriminate H|].
        eexists; repeat split; try reflexivity;
          [intros f' Hf; discriminate Hf|repeat constructor].
      * eexists; repeat split; try reflexivity;
          [intros f' Hf; inversion Hf; reflexivity|repeat constructor].
  - intros f e ->. split; reflexivity.
Qed.

Lemma result_channels_witness :
  let s := new_session [] in
  let result := uniqueServiceArray s in
  let complete := opt_on_search_complete both_callbacks in
  (returns complete = true ->
   (exists before,
      deadline_v1 both_callbacks s = Ret (before ++ [PromiseResolved result])
      /\ count is_resolution before = 0%nat
      /\ count is_complete_callback before
         = (if is_function complete then 1 else 0)%nat
      /\ (forall f, complete = JSFunction f None ->
                    In (CompleteCallback f result) before)
      /\ Forall (fun d => result_of d = result) before)
   /\ (is_function complete || negb (truthy complete) = true ->
       exists ds,
         deadline_v0 both_callbacks s = Ret ds
         /\ count is_resolution ds = 0%nat
         /\ count is_complete_callback ds
            = (if is_function complete then 1 else 0)%nat
         /\ (forall f, complete = JSFunction f None ->
                       ds = [CompleteCallback f result])
         /\ Forall (fun d => result_of d = result) ds))
  /\ (forall f e, complete = JSFunction f (Some e) ->
                  deadline_v1 both_callbacks s = Throw e
                  /\ deadline_v0 both_callbacks s = Throw e).
Proof.
  intros s. apply (result_channels both_callbacks s). reflexivity.
Defined.

(** C2 as stated fails: with [on_search_complete] a function, a search by
    [search_mdns_servicesmv1] delivers its result through the callback and
    through the promise. *)
Lemma both_channels_deliver :
  exists result,
    run_v1 10 both_callbacks [Listening true; Datagram full_datagram]
    = Ret [CompleteCallback 2 result; ConsoleLog result; PromiseResolved result]
    /\ result = [mk_delivered (js "device-1") [js "192.168.1.50"] (Some 5353) []].
Proof.
  eexists. split; [vm_compute; reflexivity|reflexivity].
Qed.

(* ================================================================== *)
(** ** The options: interface address and timeout *)

(** C6, as the code has it.  When [options.interface] is unset (or the empty
    string), no call fails: [start_mdns_listener] creates the socket and asks
    to bind it to the default address 169.254.137.22, and both search
    functions go on to arm their timer. *)
Theorem unset_interface_binds_default (options : search_options) :
  opt_interface options = None \/ opt_interface options = Some [] ->
  let l := listener_of options in
  local_interface l = default_interface
  /\ start_mdns_listener options
     = Ret (l, [CreateSocket; Bind (mdns_port l) default_interface])
  /\ search_mdns_services options
     = Ret (mk_started l [CreateSocket; Bind (mdns_port l) default_interface;
                          SetTimeout (timeout_v0 options)])
  /\ search_mdns_servicesmv1 options
     = Ret (mk_started l [CreateSocket; Bind (mdns_port l) default_interface;
                          SetTimeout (timeout_v1 options)]).
Proof.
  intros Hunset l.
  assert (Hl : local_interface l = default_interface).
  { unfold l, listener_of. cbn [local_interface].
    destruct Hunset as [-> | ->]; reflexivity. }
  unfold search_mdns_services, search_mdns_servicesmv1, start_mdns_listener.
  fold l. rewrite Hl. repeat split.
Qed.

Lemma unset_interface_binds_default_witness :
  let l := listener_of no_options in
  local_interface l = default_interface
  /\ start_mdns_listener no_options
     = Ret (l, [CreateSocket; Bind (mdns_port l) default_interface])
  /\ search_mdns_services no_options
     = Ret (mk_started l [CreateSocket; Bind (mdns_port l) default_interface;
                          SetTimeout (timeout_v0 no_options)])
  /\ search_mdns_servicesmv1 no_options
     = Ret (mk_started l [CreateSocket; Bind (mdns_port l) default_interface;
                          SetTimeout (timeout_v1 no_options)]).
Proof.
  apply (unset_interface_binds_default no_options). left. reflexivity.
Defined.

(** C6 as stated fails: a search with no interface address does not fail; it
    returns with the socket created and bound to the default address. *)
Lemma search_without_interface_proceeds :
  opt_interface no_options = None
  /\ exists st,
       search_mdns_servicesmv1 no_options = Ret st
       /\ started_calls st
          = [CreateSocket; Bind 5353%float (js "169.254.137.22");
             SetTimeout (JSNumber 5000%float)].
Proof.
  split; [reflexivity|]. eexists. split; reflexivity.
Qed.

(** C7, as the code has it.  When [options.timeout] is not a positive number,
    no call fails and the socket is created and bound all the same:
    [search_mdns_servicesmv1] arms its timer with the default 5000, and
    [search_mdns_services] with 5000 when the value is falsy and with the
    value itself otherwise. *)
Theorem bad_timeout_is_not_rejected (options : search_options) :
  is_positive_number (opt_timeout options) = false ->
  let l := listener_of options in
  search_mdns_servicesmv1 options
  = Ret (mk_started l [CreateSocket; Bind (mdns_port l) (local_interface l);
                       SetTimeout (JSNumber 5000%float)])
  /\ search_mdns_services options
     = Ret (mk_started l [CreateSocket; Bind (mdns_port l) (local_interface l);
                          SetTimeout (if truthy (opt_timeout options)
                                      then opt_timeout options
                                      else JSNumber 5000%float)]).
Proof.
  intros Hbad l.
  unfold search_mdns_servicesmv1, search_mdns_services, start_mdns_listener,
    timeout_v1, timeout_v0, or_default.
  rewrite Hbad. split; reflexivity.
Qed.

Lemma bad_timeout_is_not_rejected_witness :
  let l := listener_of negative_timeout in
  search_mdns_servicesmv1 negative_timeout
  = Ret (mk_started l [CreateSocket; Bind (mdns_port l) (local_interface l);
                       SetTimeout (JSNumber 5000%float)])
  /\ search_mdns_services negative_timeout
     = Ret (mk_started l [CreateSocket; Bind (mdns_port l) (local_interface l);
                          SetTimeout (if truthy (opt_timeout negative_timeout)
                                      then opt_timeout negative_timeout
                                      else JSNumber 5000%float)]).
Proof.
  apply (bad_timeout_is_not_rejected negative_timeout). reflexivity.
Defined.

(** C7 as stated fails: with the timeout -1 neither function fails; the
    promise-based one waits 5000 ms and the callback-based one hands -1 to
    the timer. *)
Lemma negative_timeout_accepted :
  is_positive_number (opt_timeout negative_timeout) = false
  /\ (exists st,
        search_mdns_servicesmv1 negative_timeout = Ret st
        /\ started_calls st
           = [CreateSocket; Bind 5353%float (js "192.168.1.2");
              SetTimeout (JSNumber 5000%float)])
  /\ (exists st,
        search_mdns_services negative_timeout = Ret st
        /\ started_calls st
           = [CreateSocket; Bind 5353%float (js "192.168.1.2");
              SetTimeout (JSNumber (-1)%float)]).
Proof.
  split; [reflexivity|]. split; eexists; split; reflexivity.
Qed.

(* ================================================================== *)
(** * Further properties of the codec *)

(** ** Reads stay in the buffer *)

Lemma readUInt8_inside (buf : buffer) (offset v : Z) :
  readUInt8 buf offset = Ret v -> 0 <= offset < buf_length buf.
Proof.
  unfold readUInt8.
  destruct (0 <=? offset) eqn:E1; destruct (offset <? buf_length buf) eqn:E2;
    cbn [andb]; try discriminate.
  intros _. apply Z.leb_le in E1. apply Z.ltb_lt in E2. lia.
Qed.

Lemma readUInt8_outside (buf : buffer) (offset : Z) :
  offset < 0 \/ buf_length buf <= offset ->
  readUInt8 buf offset = Throw ERR_OUT_OF_RANGE.
Proof.
  intros H. unfold readUInt8.
  destruct (0 <=? offset) eqn:E1; destruct (offset <? buf_length buf) eqn:E2;
    cbn [andb]; try reflexivity.
  apply Z.leb_le in E1. apply Z.ltb_lt in E2. lia.
Qed.

Lemma readUInt8_not_OutOfFuel (buf : buffer) (offset : Z) :
  readUInt8 buf offset <> OutOfFuel.
Proof. unfold readUInt8. destruct (_ && _); discriminate. Qed.

Lemma readUInt16BE_inside (buf : buffer) (offset v : Z) :
  readUInt16BE buf offset = Ret v ->
  0 <= offset /\ offset + 2 <= buf_length buf /\ 0 <= v < 65536.
Proof.
  unfold readUInt16BE.
  destruct (0 <=? offset) eqn:E1; destruct (offset + 2 <=? buf_length buf) eqn:E2;
    cbn [andb]; try discriminate.
  intros H. inversion H. apply Z.leb_le in E1, E2.
  pose proof (byte_val_range (nth (Z.to_nat offset) buf x00)).
  pose proof (byte_val_range (nth (Z.to_nat (offset + 1)) buf x00)).
  lia.
Qed.

Lemma readUInt32BE_inside (buf : buffer) (offset v : Z) :
  readUInt32BE buf offset = Ret v -> offset + 4 <= buf_length buf.
Proof.
  unfold readUInt32BE.
  destruct (0 <=? offset) eqn:E1; destruct (offset + 4 <=? buf_length buf) eqn:E2;
    cbn [andb]; try discriminate.
  intros _. apply Z.leb_le in E2. lia.
Qed.

(** ** [read_name]: where it ends *)

Lemma read_name_loop_end (fuel : nat) (buf : buffer) :
  forall offset labels jumped original r,
    read_name_loop fuel buf offset labels jumped original = Ret r ->
    if jumped then read_bytes r = original
    else offset < read_bytes r <= buf_length buf.
Proof.
  induction fuel as [|fuel IH]; intros offset labels jumped original r H;
    [discriminate|].
  rewrite read_name_loop_S in H.
  destruct (readUInt8 buf offset) as [len| |] eqn:R; cbn [bind] in H;
    try discriminate.
  pose proof (readUInt8_inside _ _ _ R) as Hin.
  pose proof (readUInt8_range _ _ _ R) as Hlen.
  destruct (len =? 0).
  - inversion H; subst. cbn [read_bytes]. destruct jumped; [reflexivity|lia].
  - destruct (Z.land len 192 =? 192).
    + destruct (readUInt8 buf (offset + 1)) as [low| |] eqn:R1; cbn [bind] in H;
        try discriminate.
      pose proof (readUInt8_inside _ _ _ R1) as Hin1.
      apply IH in H. cbn iota in H.
      destruct jumped; [exact H|]. rewrite H. lia.
    + apply IH in H. destruct jumped; [exact H|]. lia.
Qed.

Lemma read_name_stays_inside (fuel : nat) (buf : buffer) (offset : Z)
    (r : name_result) :
  read_name fuel buf offset = Ret r ->
  offset < read_bytes r <= buf_length buf.
Proof.
  unfold read_name. intros H. apply try_wrap_Ret in H.
  exact (read_name_loop_end _ _ _ _ _ _ _ H).
Qed.

(** X4: when [read_name] returns, the offset it reports is past the one it
    was given and not past the end of the buffer, pointers or not. *)
Theorem read_name_advances (fuel : nat) (buf : buffer) (offset : Z)
    (r : name_result) :
  read_name fuel buf offset = Ret r ->
  offset < read_bytes r <= buf_length buf.
Proof.
  unfold read_name. intros H. apply try_wrap_Ret in H.
  exact (read_name_loop_end _ _ _ _ _ _ _ H).
Qed.

Lemma read_name_advances_witness :
  7 < read_bytes (mk_name_result (js "foo") 9) <= buf_length pointer_chain.
Proof.
  apply (read_name_advances 4 pointer_chain 7 (mk_name_result (js "foo") 9)).
  reflexivity.
Defined.

(** ** [read_name]: buffers without pointers *)

Lemma pointer_free_read (buf : buffer) (offset v : Z) :
  pointer_free buf -> readUInt8 buf offset = Ret v -> Z.land v 192 <> 192.
Proof.
  intros Hfree H. pose proof (readUInt8_inside _ _ _ H) as Hin.
  unfold readUInt8 in H. destruct (_ && _); [|discriminate].
  inversion H. unfold pointer_free in Hfree. rewrite Forall_forall in Hfree.
  apply Hfree. apply nth_In. unfold buf_length in Hin. lia.
Qed.

Lemma read_name_loop_ends_without_pointer (buf : buffer) :
  pointer_free buf ->
  forall fuel offset labels jumped original,
    buf_length buf - offset <= Z.of_nat fuel ->
    read_name_loop (S fuel) buf offset labels jumped original <> OutOfFuel.
Proof.
  intros Hfree.
  induction fuel as [|fuel IH]; intros offset labels jumped original Hfuel;
    rewrite read_name_loop_S;
    (destruct (readUInt8 buf offset) as [len| |] eqn:R; cbn [bind];
     [|discriminate|now apply readUInt8_not_OutOfFuel in R]);
    pose proof (readUInt8_inside _ _ _ R) as Hin;
    pose proof (readUInt8_range _ _ _ R) as Hlen;
    pose proof (pointer_free_read _ _ _ Hfree R) as Hp.
  - simpl in Hfuel. lia.
  - destruct (len =? 0); [discriminate|].
    replace (Z.land len 192 =? 192) with false
      by (symmetry; now apply Z.eqb_neq).
    apply IH. lia.
Qed.

Lemma read_name_ends_plain (buf : buffer) (fuel : nat) (offset : Z) :
  pointer_free buf ->
  buf_length buf - offset <= Z.of_nat fuel ->
  read_name (S fuel) buf offset <> OutOfFuel.
Proof.
  intros Hfree Hfuel E. unfold read_name in E.
  destruct (read_name_loop (S fuel) buf offset [] false offset) eqn:L;
    try discriminate.
  revert L. now apply read_name_loop_ends_without_pointer.
Qed.

(** X5: on a buffer that holds no pointer the loop of [read_name] ends, with a
    name or with an error, within as many iterations as there are bytes from
    the offset to the end, plus one: only a pointer can keep it running. *)
Theorem read_name_ends_without_pointer (buf : buffer) (fuel : nat) (offset : Z) :
  pointer_free buf ->
  buf_length buf - offset <= Z.of_nat fuel ->
  read_name (S fuel) buf offset <> OutOfFuel.
Proof.
  intros Hfree Hfuel. unfold read_name. intros E.
  destruct (read_name_loop (S fuel) buf offset [] false offset) eqn:L;
    try discriminate.
  exact (read_name_loop_ends_without_pointer buf Hfree fuel offset
           [] false offset Hfuel L).
Qed.

Lemma read_name_ends_without_pointer_witness :
  read_name 6 (label "foo" ++ [x00]) 0 <> OutOfFuel.
Proof.
  apply (read_name_ends_without_pointer (label "foo" ++ [x00]) 5 0).
  - repeat constructor; vm_compute; discriminate.
  - vm_compute. discriminate.
Defined.

(** ** [parse_record]: how far it advances *)

Lemma txt_entries_end (n : nat) (buf : buffer) (stop : Z) :
  forall offset txts txts' offset',
    txt_entries n buf offset stop txts = Ret (txts', offset') ->
    stop <= offset' /\ offset <= offset'.
Proof.
  induction n as [|n IH]; intros offset txts txts' offset' H;
    cbn [txt_entries] in H; destruct (offset <? stop) eqn:E;
    try discriminate;
    try (inversion H; subst; apply Z.ltb_ge in E; lia).
  destruct (readUInt8 buf offset) as [txt_len| |] eqn:R; cbn [bind] in H;
    try discriminate.
  pose proof (readUInt8_range _ _ _ R) as Hlen.
  destruct (indexOf equals_sign _); apply IH in H; lia.
Qed.



(** Every record takes at least eleven bytes: one for its name, ten for its
    fixed fields. *)
Lemma parse_record_eleven (fuel : nat) (buf : buffer) (offset : Z) (r : record) :
  parse_record fuel buf offset = Ret r ->
  offset + 11 <= r_offset r /\ offset + 11 <= buf_length buf.
Proof.
  unfold parse_record. intros H. apply try_wrap_Ret in H.
  destruct (read_name fuel buf offset) as [owner| |] eqn:N; cbn [bind] in H;
    try discriminate.
  apply read_name_stays_inside in N.
  destruct (readUInt16BE buf (read_bytes owner)) as [type| |] eqn:R1;
    cbn [bind] in H; try discriminate.
  destruct (readUInt16BE buf (read_bytes owner + 2)) as [cls| |] eqn:R2;
    cbn [bind] in H; try discriminate.
  destruct (readUInt32BE buf (read_bytes owner + 2 + 2)) as [ttl| |] eqn:R3;
    cbn [bind] in H; try discriminate.
  destruct (readUInt16BE buf (read_bytes owner + 2 + 2 + 4)) as [rdlength| |] eqn:R4;
    cbn [bind] in H; try discriminate.
  apply readUInt16BE_inside in R4 as [_ [Hend Hrd]].
  destruct (type =? 12).
  { step_bind H. inversion H; subst; cbn [r_offset]. lia. }
  destruct (type =? 33).
  { do 4 step_bind H. inversion H; subst; cbn [r_offset]. lia. }
  destruct (type =? 16).
  { step_bind H. destruct a as [txts off]. inversion H; subst. cbn [r_offset].
    apply txt_entries_end in E. lia. }
  destruct (type =? 1).
  { step_bind H. inversion H; subst; cbn [r_offset]. lia. }
  inversion H; subst; cbn [r_offset]. lia.
Qed.

Lemma parse_records_count (fuel : nat) (buf : buffer) (n : nat) :
  forall offset records,
    parse_records fuel n buf offset = Ret records ->
    List.length records = n
    /\ (n <> O -> offset + 11 * Z.of_nat n <= buf_length buf).
Proof.
  induction n as [|n IH]; intros offset records H; cbn [parse_records] in H.
  - inversion H. split; [reflexivity|]. intros F; now elim F.
  - destruct (parse_record fuel buf offset) as [rec| |] eqn:R; cbn [bind] in H;
      try discriminate.
    destruct (parse_records fuel n buf (r_offset rec)) as [rest| |] eqn:Rs;
      cbn [bind] in H; try discriminate.
    inversion H; subst. apply parse_record_eleven in R.
    destruct (IH _ _ Rs) as [Hlen Hbound]. cbn [List.length].
    split; [now rewrite Hlen|]. intros _.
    destruct n as [|n]; [lia|].
    assert (S n <> O) as Hn by discriminate. specialize (Hbound Hn). lia.
Qed.

Lemma skip_questions_five (fuel : nat) (buf : buffer) (n : nat) :
  forall offset offset',
    skip_questions fuel n buf offset = Ret offset' ->
    offset + 5 * Z.of_nat n <= offset'.
Proof.
  induction n as [|n IH]; intros offset offset' H; cbn [skip_questions] in H.
  - inversion H. lia.
  - destruct (read_name fuel buf offset) as [res| |] eqn:N; cbn [bind] in H;
      try discriminate.
    apply read_name_stays_inside in N. apply IH in H. lia.
Qed.

(** X10: a parsed message holds exactly as many records as its three counts
    announce, and the buffer is long enough for them: twelve bytes of header,
    at least five for each question and eleven for each record.  A header
    that announces more records than the datagram has room for never yields a
    record list. *)
Theorem parse_dns_message_counts (fuel : nat) (buf : buffer) (m : dns_message) :
  parse_dns_message fuel buf = Ret m ->
  let h := m_header m in
  Z.of_nat (List.length (m_records m)) = h_ancount h + h_nscount h + h_arcount h
  /\ (m_records m <> [] ->
      12 + 5 * h_qdcount h + 11 * Z.of_nat (List.length (m_records m))
      <= buf_length buf).
Proof.
  unfold parse_dns_message. intros H. apply try_wrap_Ret in H.
  destruct (readUInt16BE buf 0) as [id| |] eqn:R0; cbn [bind] in H; try discriminate.
  destruct (readUInt16BE buf 2) as [flags| |] eqn:R2; cbn [bind] in H; try discriminate.
  destruct (readUInt16BE buf 4) as [qd| |] eqn:R4; cbn [bind] in H; try discriminate.
  destruct (readUInt16BE buf 6) as [an| |] eqn:R6; cbn [bind] in H; try discriminate.
  destruct (readUInt16BE buf 8) as [ns| |] eqn:R8; cbn [bind] in H; try discriminate.
  destruct (readUInt16BE buf 10) as [ar| |] eqn:R10; cbn [bind] in H; try discriminate.
  destruct (skip_questions fuel (Z.to_nat qd) buf 12) as [offset| |] eqn:Q;
    cbn [bind] in H; try discriminate.
  destruct (parse_records fuel (Z.to_nat (an + ns + ar)) buf offset)
    as [records| |] eqn:P; cbn [bind] in H; try discriminate.
  inversion H; subst. cbn [m_header m_records h_qdcount h_ancount h_nscount h_arcount].
  apply readUInt16BE_inside in R4 as [_ [_ Hqd]].
  apply readUInt16BE_inside in R6 as [_ [_ Han]].
  apply readUInt16BE_inside in R8 as [_ [_ Hns]].
  apply readUInt16BE_inside in R10 as [_ [_ Har]].
  apply skip_questions_five in Q.
  destruct (parse_records_count _ _ _ _ _ P) as [Hlen Hbound].
  split; [rewrite Hlen; lia|].
  intros Hne. rewrite Hlen.
  assert (Hn : Z.to_nat (an + ns + ar) <> O).
  { intros E. rewrite E in Hlen. destruct records; [now elim Hne|discriminate]. }
  specialize (Hbound Hn). lia.
Qed.

Lemma parse_dns_message_counts_witness :
  exists m,
    parse_dns_message 10 full_datagram = Ret m
    /\ Z.of_nat (List.length (m_records m))
       = h_ancount (m_header m) + h_nscount (m_header m) + h_arcount (m_header m)
    /\ (m_records m <> [] ->
        12 + 5 * h_qdcount (m_header m)
        + 11 * Z.of_nat (List.length (m_records m))
        <= buf_length full_datagram).
Proof.
  eexists. split; [vm_compute; reflexivity|].
  eapply (parse_dns_message_counts 10 full_datagram). vm_compute. reflexivity.
Defined.

(** ** [build_query]: empty labels *)

Lemma qname_labels_filter (parts : list jsstring) :
  qname_labels (filter non_empty parts) = qname_labels parts.
Proof.
  induction parts as [|part parts IH]; [reflexivity|].
  destruct part as [|c part]; cbn [filter non_empty qname_labels]; [exact IH|].
  now rewrite IH.
Qed.

(** X2: the query depends on the non-empty labels of the service name only:
    a doubled, leading or trailing dot changes nothing. *)
Theorem build_query_drops_empty_labels (a b : jsstring) :
  filter non_empty (split_on dot a) = filter non_empty (split_on dot b) ->
  build_query a = build_query b.
Proof.
  intros H. unfold build_query. cbv zeta.
  rewrite !split_full_service_query.
  rewrite <- (qname_labels_filter (split_on dot a ++ _)).
  rewrite <- (qname_labels_filter (split_on dot b ++ _)).
  now rewrite !filter_app, H.
Qed.

Lemma build_query_drops_empty_labels_witness :
  build_query (js ".a..b.") = build_query (js "a.b").
Proof.
  apply (build_query_drops_empty_labels (js ".a..b.") (js "a.b")). reflexivity.
Defined.

(** ** A query read back as a message *)

Lemma readUInt16BE_prefix (pre rest : buffer) (offset : Z) :
  0 <= offset -> offset + 2 <= buf_length pre ->
  readUInt16BE (pre ++ rest) offset = readUInt16BE pre offset.
Proof.
  intros H0 H2. unfold readUInt16BE, buf_length in *. rewrite length_app.
  replace (0 <=? offset) with true by (symmetry; apply Z.leb_le; lia).
  replace (offset + 2 <=? Z.of_nat (List.length pre + List.length rest))
    with true by (symmetry; apply Z.leb_le; lia).
  replace (offset + 2 <=? Z.of_nat (List.length pre))
    with true by (symmetry; apply Z.leb_le; lia).
  cbn [andb]. rewrite !app_nth1 by lia. reflexivity.
Qed.

(** X3: a query built for an ASCII service name whose labels are not empty and
    at most 63 bytes long is a well-formed message: read back by
    [parse_dns_message] it has the header of a query with one question and
    holds no record.  The socket hears its own query on the multicast group;
    on a session that has found nothing the handler then reports nothing and
    leaves the session as it was. *)
Theorem own_query_holds_no_record (service_query : jsstring) (fuel : nat) :
  ascii_string service_query ->
  Forall (fun part => part <> [] /\ str_length part <= 63)
         (split_on dot service_query) ->
  (List.length (split_on dot service_query) + 1 < fuel)%nat ->
  exists q,
    build_query service_query = Ret q
    /\ parse_dns_message fuel q = Ret (mk_message (mk_header 0 0 1 0 0 0) [])
    /\ forall l cb setup,
         on_event fuel l cb (new_session setup) (Datagram q)
         = Ret (new_session setup).
Proof.
  intros Hascii Hlabels Hfuel.
  assert (Hparts : Forall plain_label (split_on dot service_query ++ [js "local"])).
  { apply Forall_app. split.
    - pose proof (split_ascii dot _ Hascii) as Hsplit.
      rewrite Forall_forall in *. intros p Hin.
      destruct (Hlabels p Hin) as [Hne Hlen]. repeat split; auto.
    - constructor; [|constructor]. repeat split.
      + discriminate.
      + vm_compute. discriminate.
      + change (js "local") with [108; 111; 99; 97; 108].
        repeat (constructor; [lia|]). constructor. }
  unfold build_query. cbv zeta.
  rewrite split_full_service_query, qname_labels_ok.
  2:{ eapply Forall_impl; [|exact Hparts]. intros p [_ [Hlen _]]. simpl. lia. }
  cbn [bind try_wrap]. eexists. split; [reflexivity|].
  set (header := u16be 0 ++ u16be 0 ++ u16be 1 ++ u16be 0 ++ u16be 0 ++ u16be 0).
  set (labels := List.concat (map encoded_label
                                  (split_on dot service_query ++ [js "local"]))).
  replace (header ++ (labels ++ [x00]) ++ u16be 12 ++ u16be 1)
    with (header ++ labels ++ x00 :: u16be 12 ++ u16be 1)
    by (now rewrite <- (app_assoc labels)).
  set (q := header ++ labels ++ x00 :: u16be 12 ++ u16be 1).
  assert (Hname : read_name fuel q 12
                  = Ret (mk_name_result
                           (join_with dot (split_on dot service_query ++ [js "local"]))
                           (buf_length q - 4))).
  { unfold read_name. apply try_wrap_Ret. unfold q, labels.
    change 12 with (buf_length header) at 1 2.
    rewrite read_name_loop_labels.
    - cbn [app]. f_equal. f_equal. unfold buf_length. rewrite !length_app.
      change (List.length (x00 :: u16be 12 ++ u16be 1)) with 5%nat. lia.
    - exact Hparts.
    - rewrite length_app. cbn [List.length]. lia. }
  assert (Hparse : parse_dns_message fuel q
                   = Ret (mk_message (mk_header 0 0 1 0 0 0) [])).
  { unfold parse_dns_message. unfold q at 1 2 3 4 5 6.
    rewrite !readUInt16BE_prefix by (vm_compute; discriminate).
    change (readUInt16BE header 0) with (Ret 0).
    change (readUInt16BE header 2) with (Ret 0).
    change (readUInt16BE header 4) with (Ret 1).
    change (readUInt16BE header 6) with (Ret 0).
    change (readUInt16BE header 8) with (Ret 0).
    change (readUInt16BE header 10) with (Ret 0).
    cbn [bind]. change (Z.to_nat 1) with 1%nat. cbn [skip_questions].
    rewrite Hname. cbn [bind read_bytes skip_questions].
    change (Z.to_nat (0 + 0 + 0)) with O. cbn [parse_records bind try_wrap].
    reflexivity. }
  split; [exact Hparse|].
  intros l cb setup. unfold on_event, on_message.
  cbn [new_session socket_open correlator search]. rewrite Hparse.
  reflexivity.
Qed.

Lemma own_query_holds_no_record_witness :
  exists q,
    build_query default_service_query = Ret q
    /\ parse_dns_message 5 q = Ret (mk_message (mk_header 0 0 1 0 0 0) [])
    /\ forall l cb setup,
         on_event 5 l cb (new_session setup) (Datagram q)
         = Ret (new_session setup).
Proof.
  apply (own_query_holds_no_record default_service_query 5).
  - change default_service_query
      with [95; 115; 109; 97; 114; 116; 95; 105; 112; 46; 95; 116; 99; 112].
    repeat (constructor; [lia|]). constructor.
  - repeat constructor; vm_compute; discriminate.
  - vm_compute. lia.
Defined.

(* ================================================================== *)
(** * Further properties of the correlator *)

(** ** Names under the queried service *)

Lemma endsWith_iff (s suffix : jsstring) :
  endsWith s suffix = true <-> exists pre, s = pre ++ suffix.
Proof.
  split; [apply endsWith_app|].
  intros [pre ->]. unfold endsWith. rewrite length_app.
  replace (List.length suffix <=? List.length pre + List.length suffix)%nat
    with true by (symmetry; apply Nat.leb_le; lia).
  replace (List.length pre + List.length suffix - List.length suffix)%nat
    with (List.length pre + 0)%nat by lia.
  rewrite skipn_app, skipn_all2 by lia.
  replace (List.length pre + 0 - List.length pre)%nat with O by lia.
  cbn [skipn app andb]. apply str_eqb_refl.
Qed.

(** X13: a name is under the queried service exactly when it is the query name
    itself or ends with a dot followed by the query name; a name that only
    ends with the query name, without the dot, is not. *)
Theorem is_smart_ip_service_iff (name full_service_query : jsstring) :
  is_smart_ip_service name full_service_query = true
  <-> name = full_service_query
      \/ exists instance, name = instance ++ dot :: full_service_query.
Proof.
  unfold is_smart_ip_service. rewrite orb_true_iff, str_eqb_eq, endsWith_iff.
  reflexivity.
Qed.

Lemma not_own_suffix (s pre : jsstring) (c : Z) : s <> pre ++ c :: s.
Proof.
  intros H. apply (f_equal (@List.length Z)) in H.
  rewrite length_app in H. cbn [List.length] in H. lia.
Qed.

Lemma smart_name_cases (name full_service_query : jsstring) :
  is_smart_ip_service name full_service_query = true ->
  name = full_service_query
  \/ exists instance, name = instance ++ dot :: full_service_query.
Proof.
  unfold is_smart_ip_service. rewrite orb_true_iff, str_eqb_eq, endsWith_iff.
  tauto.
Qed.

Lemma display_name_of_query (full_service_query : jsstring) :
  display_name_of full_service_query full_service_query = full_service_query.
Proof.
  unfold display_name_of. cbv zeta.
  destruct (endsWith _ _) eqn:E; [|reflexivity].
  apply endsWith_iff in E as [pre E]. now apply not_own_suffix in E.
Qed.

Lemma display_name_of_instance (full_service_query instance : jsstring) :
  display_name_of full_service_query (instance ++ dot :: full_service_query)
  = instance.
Proof.
  unfold display_name_of. cbv zeta.
  replace (endsWith (instance ++ dot :: full_service_query)
                    (dot :: full_service_query)) with true
    by (symmetry; apply endsWith_iff; now exists instance).
  unfold strip_suffix. rewrite length_app.
  replace (List.length instance + List.length (dot :: full_service_query)
           - List.length (dot :: full_service_query))%nat
    with (List.length instance + 0)%nat by lia.
  rewrite firstn_app_2. cbn [firstn]. apply app_nil_r.
Qed.

(** X14: which names are shown alike.  Two names under the queried service
    get the same display name exactly when they are the same name, or when
    one is the query name [Q] itself and the other the instance [Q.Q]: both
    are shown as [Q].  For every other pair the name shown tells the names
    apart. *)
Theorem display_names_collide_only_at_query_name
    (full_service_query name1 name2 : jsstring) :
  is_smart_ip_service name1 full_service_query = true ->
  is_smart_ip_service name2 full_service_query = true ->
  (display_name_of full_service_query name1
   = display_name_of full_service_query name2
   <-> name1 = name2
       \/ (name1 = full_service_query
           /\ name2 = full_service_query ++ dot :: full_service_query)
       \/ (name1 = full_service_query ++ dot :: full_service_query
           /\ name2 = full_service_query)).
Proof.
  intros H1 H2.
  apply smart_name_cases in H1 as [->|[i1 ->]];
    apply smart_name_cases in H2 as [->|[i2 ->]];
    rewrite ?display_name_of_query, ?display_name_of_instance.
  - split; [now left|reflexivity].
  - split.
    + intros <-. right. left. now split.
    + intros [H|[[_ H]|[H _]]].
      * now apply not_own_suffix in H.
      * now apply app_inv_tail in H.
      * now apply not_own_suffix in H.
  - split.
    + intros ->. right. right. now split.
    + intros [H|[[H _]|[H _]]].
      * symmetry in H. now apply not_own_suffix in H.
      * symmetry in H. now apply not_own_suffix in H.
      * now apply app_inv_tail in H.
  - split.
    + intros ->. now left.
    + intros [H|[[H _]|[_ H]]].
      * now apply app_inv_tail in H.
      * symmetry in H. now apply not_own_suffix in H.
      * symmetry in H. now apply not_own_suffix in H.
Qed.

Lemma display_names_collide_only_at_query_name_witness :
  display_name_of smart_ip_local smart_ip_local
  = display_name_of smart_ip_local (smart_ip_local ++ dot :: smart_ip_local)
  <-> smart_ip_local = smart_ip_local ++ dot :: smart_ip_local
      \/ (smart_ip_local = smart_ip_local
          /\ smart_ip_local ++ dot :: smart_ip_local
             = smart_ip_local ++ dot :: smart_ip_local)
      \/ (smart_ip_local = smart_ip_local ++ dot :: smart_ip_local
          /\ smart_ip_local ++ dot :: smart_ip_local = smart_ip_local).
Proof.
  apply (display_names_collide_only_at_query_name smart_ip_local smart_ip_local
           (smart_ip_local ++ dot :: smart_ip_local)); reflexivity.
Defined.

(* ================================================================== *)
(** ** The TXT object *)

Lemma overwrite_None {V : Type} (key : jsstring) (v : V) (o : list (jsstring * V)) :
  overwrite key v o = None <-> own_property o key = None.
Proof.
  induction o as [|[k w] o IH]; cbn [overwrite own_property]; [tauto|].
  destruct (str_eqb k key); [split; discriminate|].
  destruct (overwrite key v o); cbn [option_map].
  - split; [discriminate|]. intros H. apply IH in H. discriminate.
  - split; intros _; [now apply IH|reflexivity].
Qed.

Lemma overwrite_lookup {V : Type} (key : jsstring) (v : V) (o o' : list (jsstring * V)) :
  overwrite key v o = Some o' ->
  map fst o' = map fst o
  /\ forall k, own_property o' k
               = if str_eqb key k then Some v else own_property o k.
Proof.
  revert o'. induction o as [|[k0 w] o IH]; intros o' H;
    cbn [overwrite] in H; [discriminate|].
  destruct (str_eqb k0 key) eqn:E.
  - inversion H; subst. apply str_eqb_eq in E. subst k0.
    split; [reflexivity|]. intros k. cbn [own_property].
    destruct (str_eqb key k); reflexivity.
  - destruct (overwrite key v o) as [o1|]; cbn [option_map] in H;
      [|discriminate].
    inversion H; subst. destruct (IH o1 eq_refl) as [Hkeys Hlook].
    split; [cbn [map fst]; now rewrite Hkeys|].
    intros k. cbn [own_property]. rewrite Hlook.
    destruct (str_eqb k0 k) eqn:E0; [|reflexivity].
    apply str_eqb_eq in E0. subst k0.
    destruct (str_eqb key k) eqn:E1; [|reflexivity].
    apply str_eqb_eq in E1. subst k. now rewrite str_eqb_refl in E.
Qed.

Lemma own_property_app_None {V : Type} (o o' : list (jsstring * V)) (key : jsstring) :
  own_property o key = None -> own_property (o ++ o') key = own_property o' key.
Proof.
  induction o as [|[k w] o IH]; cbn [own_property app]; [reflexivity|].
  destruct (str_eqb k key); [discriminate|exact IH].
Qed.

(** X8: the TXT object behaves as a map under [txts[key] = value]: the key
    then holds the value, the last one assigned when an entry repeats a key,
    and every other key holds what it held.  The key [__proto__] is the
    exception: the assignment stores nothing. *)
Theorem txt_set_lookup (key : jsstring) (v : txt_value) (o : txt_object) :
  (key <> proto_key ->
   own_property (txt_set key v o) key = Some v
   /\ forall k, k <> key -> own_property (txt_set key v o) k = own_property o k)
  /\ txt_set proto_key v o = o.
Proof.
  split.
  - intros Hkey. unfold txt_set.
    replace (str_eqb key proto_key) with false
      by (symmetry; apply not_true_is_false; now rewrite str_eqb_eq).
    destruct (overwrite key v o) as [o'|] eqn:E.
    + destruct (overwrite_lookup _ _ _ _ E) as [Hkeys Hlook]. split.
      * now rewrite Hlook, str_eqb_refl.
      * intros k Hk. rewrite Hlook.
        replace (str_eqb key k) with false; [reflexivity|].
        symmetry. apply not_true_is_false. rewrite str_eqb_eq. congruence.
    + apply overwrite_None in E. split.
      * rewrite own_property_app_None by exact E. cbn [own_property].
        now rewrite str_eqb_refl.
      * intros k Hk. destruct (own_property o k) as [w|] eqn:Ek.
        -- now apply own_property_app.
        -- rewrite own_property_app_None by exact Ek. cbn [own_property].
           replace (str_eqb key k) with false; [reflexivity|].
           symmetry. apply not_true_is_false. rewrite str_eqb_eq. congruence.
  - unfold txt_set. now rewrite str_eqb_refl.
Qed.

(* ================================================================== *)
(** ** The address of an A record *)

Lemma number_to_string_byte (b : byte) :
  decimal_value (number_to_string (byte_val b)) = byte_val b
  /\ indexOf dot (number_to_string (byte_val b)) = None.
Proof. destruct b; split; reflexivity. Qed.

Lemma split_no_sep (sep : Z) (p : jsstring) :
  indexOf sep p = None -> split_on sep p = [p].
Proof.
  induction p as [|c p IH]; cbn [indexOf split_on]; [reflexivity|].
  destruct (c =? sep); [discriminate|].
  destruct (indexOf sep p); [discriminate|]. intros _. now rewrite IH.
Qed.

Lemma split_app_no_sep (sep : Z) (p rest : jsstring) :
  indexOf sep p = None ->
  split_on sep (p ++ sep :: rest) = p :: split_on sep rest.
Proof.
  intros H. rewrite split_on_app, split_no_sep by exact H. reflexivity.
Qed.

Lemma split_join (sep : Z) (parts : list jsstring) :
  parts <> [] ->
  Forall (fun p => indexOf sep p = None) parts ->
  split_on sep (join_with sep parts) = parts.
Proof.
  intros Hne H. induction H as [|p parts Hp Hparts IH]; [now elim Hne|].
  destruct parts as [|p' parts].
  - cbn [join_with]. now apply split_no_sep.
  - change (join_with sep (p :: p' :: parts))
      with (p ++ sep :: join_with sep (p' :: parts)).
    rewrite split_app_no_sep by exact Hp. f_equal. apply IH. discriminate.
Qed.

Lemma ip_bytes_values (n : nat) (buf : buffer) :
  forall offset values,
    ip_bytes n buf offset = Ret values ->
    List.length values = n /\ Forall (fun v => exists b, v = byte_val b) values.
Proof.
  induction n as [|n IH]; intros offset values H; cbn [ip_bytes] in H.
  - inversion H. split; constructor.
  - destruct (readUInt8 buf offset) as [v| |] eqn:R; cbn [bind] in H;
      try discriminate.
    destruct (ip_bytes n buf (offset + 1)) as [rest| |] eqn:Rs; cbn [bind] in H;
      try discriminate.
    inversion H; subst. destruct (IH _ _ Rs) as [Hlen Hall].
    split; [cbn [List.length]; now rewrite Hlen|].
    constructor; [|exact Hall].
    unfold readUInt8 in R. destruct (_ && _); [|discriminate].
    inversion R. eexists; reflexivity.
Qed.

(** X9: the address string of an A record determines its bytes: for a record
    of [n >= 1] address bytes, splitting the string at the dots gives [n]
    decimal numbers, which are the bytes in order; a record with no address
    byte gives the empty string. *)
Theorem a_record_address_round_trip (n : nat) (buf : buffer) (offset : Z)
    (values : list Z) :
  ip_bytes n buf offset = Ret values ->
  let ip := join_with dot (map number_to_string values) in
  List.length values = n
  /\ (n = O -> ip = [])
  /\ (n <> O -> map decimal_value (split_on dot ip) = values).
Proof.
  intros H ip. destruct (ip_bytes_values _ _ _ _ H) as [Hlen Hall].
  split; [exact Hlen|]. split.
  - intros ->. destruct values; [reflexivity|discriminate].
  - intros Hn. unfold ip. rewrite split_join.
    + rewrite map_map. clear Hlen H.
      induction Hall as [|v values [b ->] _ IH]; [reflexivity|].
      cbn [map]. rewrite IH. f_equal. apply number_to_string_byte.
    + destruct values; [cbn in Hlen; congruence|discriminate].
    + apply Forall_map. eapply Forall_impl; [|exact Hall].
      intros v [b ->]. apply number_to_string_byte.
Qed.

Lemma a_record_address_round_trip_witness :
  let ip := join_with dot (map number_to_string [192; 168; 1; 50]) in
  List.length [192; 168; 1; 50] = 4%nat
  /\ (4%nat = O -> ip = [])
  /\ (4%nat <> O -> map decimal_value (split_on dot ip) = [192; 168; 1; 50]).
Proof.
  apply (a_record_address_round_trip 4 full_datagram 92 [192; 168; 1; 50]).
  reflexivity.
Defined.

(* ================================================================== *)
(** ** The entries of [services] *)

Lemma grows_refl {A : Type} (l : list A) : grows_from l l.
Proof. exists []. now rewrite app_nil_r. Qed.

Lemma grows_trans {A : Type} (l1 l2 l3 : list A) :
  grows_from l1 l2 -> grows_from l2 l3 -> grows_from l1 l3.
Proof. intros [a ->] [b ->]. exists (a ++ b). now rewrite app_assoc. Qed.

Lemma update_service_keys (s : services_object) (key : jsstring)
    (f : service -> service) :
  (forall v, s_name (f v) = s_name v) ->
  map fst (update_service s key f) = map fst s
  /\ (Forall (fun kv => s_name (snd kv) = fst kv) s ->
      Forall (fun kv => s_name (snd kv) = fst kv) (update_service s key f)).
Proof.
  intros Hf. induction s as [|[k v] s [IHk IHn]]; cbn [update_service].
  - split; [reflexivity|auto].
  - destruct (str_eqb k key); cbn [map fst].
    + split; [reflexivity|]. intros H. inversion H; subst.
      constructor; [cbn [fst snd] in *; now rewrite Hf|assumption].
    + split; [now rewrite IHk|]. intros H. inversion H; subst.
      constructor; auto.
Qed.

Lemma push_address_keys (entries : services_object) :
  forall h owner ip,
    map fst (fst (push_address entries h owner ip)) = map fst entries
    /\ (Forall (fun kv => s_name (snd kv) = fst kv) entries ->
        Forall (fun kv => s_name (snd kv) = fst kv)
               (fst (push_address entries h owner ip))).
Proof.
  induction entries as [|[instance svc] entries IH]; intros h owner ip;
    cbn [push_address]; [split; auto|].
  destruct (opt_str_eqb (s_target svc) owner).
  - destruct (s_addresses svc) as [ref|].
    + destruct (IH (push h ref ip) owner ip) as [Hk Hn].
      destruct (push_address entries (push h ref ip) owner ip) as [rest' h'].
      cbn [fst map] in *. split; [now rewrite Hk|].
      intros H. inversion H; subst. constructor; auto.
    + cbn [alloc]. set (h0 := push (h ++ [[]]) (List.length h) ip).
      destruct (IH h0 owner ip) as [Hk Hn].
      destruct (push_address entries h0 owner ip) as [rest' h'].
      cbn [fst map] in *. split; [now rewrite Hk|].
      intros H. inversion H; subst. constructor; auto.
  - destruct (IH h owner ip) as [Hk Hn].
    destruct (push_address entries h owner ip) as [rest' h'].
    cbn [fst map] in *. split; [now rewrite Hk|].
    intros H. inversion H; subst. constructor; auto.
Qed.

Lemma add_service_ok (s : services_object) (key : jsstring) :
  services_truthy s key = false -> services_ok s -> services_ok (add_service s key).
Proof.
  intros Hfalse [Hnodup Hnames]. unfold add_service, services_ok.
  assert (Hnot : ~ In key (map fst s)).
  { apply own_property_None. unfold services_truthy in Hfalse.
    destruct (own_property s key); [discriminate|reflexivity]. }
  split.
  - rewrite map_app. cbn [map fst].
    apply Permutation_NoDup with (l := key :: map fst s).
    + apply Permutation_cons_append.
    + now constructor.
  - apply Forall_app. split; [exact Hnames|]. now constructor.
Qed.

Lemma ensure_service_ok (s : services_object) (key : jsstring) :
  services_ok s ->
  services_ok (ensure_service s key)
  /\ grows_from (map fst s) (map fst (ensure_service s key)).
Proof.
  intros Hok. unfold ensure_service.
  destruct (services_truthy s key) eqn:E.
  - split; [exact Hok|apply grows_refl].
  - split; [now apply add_service_ok|].
    exists [key]. unfold add_service. now rewrite map_app.
Qed.

Lemma process_record_services (fq : jsstring) (st : listener_state) (rec : record) :
  services_ok (services st) ->
  services_ok (services (process_record fq st rec))
  /\ grows_from (map fst (services st))
                (map fst (services (process_record fq st rec))).
Proof.
  intros Hok. unfold process_record. cbv zeta.
  destruct ((r_type rec =? 12) && str_eqb (r_name rec) fq).
  { destruct (r_rdata rec); try (split; [exact Hok|apply grows_refl]).
    destruct (services_truthy (services st) instance) eqn:E; cbn [negb].
    - split; [exact Hok|apply grows_refl].
    - cbn [services]. split; [now apply add_service_ok|].
      exists [instance]. unfold add_service. now rewrite map_app. }
  destruct ((r_type rec =? 33) && is_smart_ip_service (r_name rec) fq).
  { destruct (ensure_service_ok _ (r_name rec) Hok) as [[Hnodup Hnames] Hgrow].
    destruct (r_rdata rec); cbn [services]; try (split; [now split|exact Hgrow]).
    match goal with
    | |- context [update_service ?s ?k ?f] =>
        destruct (update_service_keys s k f (fun v => eq_refl)) as [Hk Hn]
    end.
    unfold services_ok. rewrite Hk.
    split; [split; [exact Hnodup|now apply Hn]|exact Hgrow]. }
  destruct ((r_type rec =? 16) && is_smart_ip_service (r_name rec) fq).
  { destruct (ensure_service_ok _ (r_name rec) Hok) as [[Hnodup Hnames] Hgrow].
    destruct (r_rdata rec); cbn [services]; try (split; [now split|exact Hgrow]).
    match goal with
    | |- context [update_service ?s ?k ?f] =>
        destruct (update_service_keys s k f (fun v => eq_refl)) as [Hk Hn]
    end.
    unfold services_ok. rewrite Hk.
    split; [split; [exact Hnodup|now apply Hn]|exact Hgrow]. }
  destruct (r_type rec =? 1); [|split; [exact Hok|apply grows_refl]].
  destruct (r_rdata rec); try (split; [exact Hok|apply grows_refl]).
  destruct Hok as [Hnodup Hnames].
  destruct (push_address_keys (services st) (arrays st) (r_name rec) ip)
    as [Hk Hn].
  destruct (push_address (services st) (arrays st) (r_name rec) ip) as [s' h'].
  cbn [fst services] in *. unfold services_ok. rewrite Hk.
  split; [split; [exact Hnodup|now apply Hn]|apply grows_refl].
Qed.

(** ** The entries of [services] that are not under the service *)

Lemma update_service_bare (fq : jsstring) (s : services_object) (key : jsstring)
    (f : service -> service) :
  (forall v, s_name (f v) = s_name v) ->
  is_smart_ip_service key fq = true ->
  Forall (fun kv => s_name (snd kv) = fst kv) s ->
  bare_outside fq s -> bare_outside fq (update_service s key f).
Proof.
  intros Hf Hsmart Hnames Hbare. unfold bare_outside in *.
  induction s as [|[k v] s IH]; cbn [update_service]; [constructor|].
  apply Forall_cons_iff in Hnames as [Hk Hrest].
  apply Forall_cons_iff in Hbare as [Hb Hbrest].
  destruct (str_eqb k key) eqn:E.
  - constructor; [|exact Hbrest]. unfold in_domain. cbn [fst snd] in *.
    apply str_eqb_eq in E. rewrite Hf, Hk, E, Hsmart. discriminate.
  - constructor; [exact Hb|]. now apply IH.
Qed.

Lemma push_address_bare (fq owner ip : jsstring) (entries : services_object) :
  forall h,
    bare_outside fq entries ->
    bare_outside fq (fst (push_address entries h owner ip)).
Proof.
  unfold bare_outside.
  induction entries as [|[k svc] entries IH]; intros h Hbare;
    cbn [push_address]; [constructor|].
  apply Forall_cons_iff in Hbare as [Hb Hrest].
  destruct (opt_str_eqb (s_target svc) owner) eqn:Et.
  - assert (Hin : in_domain fq (k, svc) = true).
    { destruct (in_domain fq (k, svc)) eqn:Ed; [reflexivity|].
      specialize (Hb eq_refl). cbn [snd fst] in Hb. subst svc.
      discriminate Et. }
    destruct (s_addresses svc) as [r|].
    + specialize (IH (push h r ip) Hrest).
      destruct (push_address entries (push h r ip) owner ip) as [rest' h'].
      cbn [fst] in *. constructor; [exact Hb|exact IH].
    + cbn [alloc].
      specialize (IH (push (h ++ [[]]) (List.length h) ip) Hrest).
      destruct (push_address entries _ owner ip) as [rest' h'].
      cbn [fst] in *. constructor; [|exact IH].
      unfold in_domain in *. cbn [snd fst s_name] in *. rewrite Hin.
      discriminate.
  - specialize (IH h Hrest).
    destruct (push_address entries h owner ip) as [rest' h'].
    cbn [fst] in *. constructor; [exact Hb|exact IH].
Qed.

Lemma add_service_bare (fq : jsstring) (s : services_object) (key : jsstring) :
  bare_outside fq s -> bare_outside fq (add_service s key).
Proof.
  intros H. unfold bare_outside, add_service. apply Forall_app.
  split; [exact H|]. constructor; [|constructor]. reflexivity.
Qed.

Lemma ensure_service_bare (fq : jsstring) (s : services_object) (key : jsstring) :
  bare_outside fq s -> bare_outside fq (ensure_service s key).
Proof.
  intros H. unfold ensure_service. destruct (services_truthy s key);
    [exact H|now apply add_service_bare].
Qed.

Lemma process_record_bare (fq : jsstring) (st : listener_state) (rec : record) :
  services_ok (services st) ->
  bare_outside fq (services st) ->
  bare_outside fq (services (process_record fq st rec)).
Proof.
  intros Hok Hbare. unfold process_record. cbv zeta.
  destruct ((r_type rec =? 12) && str_eqb (r_name rec) fq).
  { destruct (r_rdata rec); try exact Hbare.
    destruct (negb _); [|exact Hbare]. now apply add_service_bare. }
  destruct ((r_type rec =? 33) && is_smart_ip_service (r_name rec) fq) eqn:E33.
  { apply andb_true_iff in E33 as [_ Hsmart].
    destruct (ensure_service_ok _ (r_name rec) Hok) as [[_ Hnames] _].
    destruct (r_rdata rec); cbn [services];
      try (now apply ensure_service_bare).
    apply update_service_bare; auto. now apply ensure_service_bare. }
  destruct ((r_type rec =? 16) && is_smart_ip_service (r_name rec) fq) eqn:E16.
  { apply andb_true_iff in E16 as [_ Hsmart].
    destruct (ensure_service_ok _ (r_name rec) Hok) as [[_ Hnames] _].
    destruct (r_rdata rec); cbn [services];
      try (now apply ensure_service_bare).
    apply update_service_bare; auto. now apply ensure_service_bare. }
  destruct (r_type rec =? 1); [|exact Hbare].
  destruct (r_rdata rec); try exact Hbare.
  pose proof (push_address_bare fq (r_name rec) ip (services st) (arrays st) Hbare)
    as H.
  destruct (push_address (services st) (arrays st) (r_name rec) ip) as [s' h'].
  exact H.
Qed.


(** X15: what the record loop keeps true of [services], whatever records go
    through it.  Every entry carries its key as its name; an entry that is
    not under the queried service stays as the PTR branch made it, a name
    with no port, target, properties or addresses, so that no A record
    matches it and the report loop passes it by; and no entry is ever
    removed: every key [services] had is still one of its keys. *)
Theorem services_keep_their_entries (fq : jsstring) (records : list record)
    (st : listener_state) :
  services_ok (services st) ->
  bare_outside fq (services st) ->
  let st' := fold_left (process_record fq) records st in
  services_ok (services st')
  /\ bare_outside fq (services st')
  /\ incl (map fst (services st)) (map fst (services st')).
Proof.
  intros Hok Hbare st'. unfold st'. clear st'.
  revert st Hok Hbare. induction records as [|rec records IH];
    intros st Hok Hbare; cbn [fold_left].
  - split; [exact Hok|]. split; [exact Hbare|apply incl_refl].
  - destruct (process_record_services fq st rec Hok) as [Hok1 [extra Hx]].
    pose proof (process_record_bare fq st rec Hok Hbare) as Hbare1.
    destruct (IH _ Hok1 Hbare1) as [Hok2 [Hbare2 Hincl]].
    split; [exact Hok2|]. split; [exact Hbare2|].
    eapply incl_tran; [|exact Hincl]. rewrite Hx. apply incl_appl, incl_refl.
Qed.

Lemma services_keep_their_entries_witness :
  let st := mk_listener_state [] [] in
  let st' := fold_left (process_record smart_ip_local)
                       [ptr_rec_7; ptr_rec; srv_rec; a_rec] st in
  services_ok (services st')
  /\ bare_outside smart_ip_local (services st')
  /\ incl (map fst (services st)) (map fst (services st')).
Proof.
  intros st.
  apply (services_keep_their_entries smart_ip_local
           [ptr_rec_7; ptr_rec; srv_rec; a_rec] st).
  - split; constructor.
  - constructor.
Defined.

(* ================================================================== *)
(** ** What is reported *)

Lemma deref_app_empty (h : heap) (k : nat) (i : nat) :
  deref (h ++ repeat [] k) i = deref h i.
Proof.
  unfold deref. destruct (Nat.lt_ge_cases i (List.length h)) as [Hlt|Hge].
  - now apply app_nth1.
  - rewrite app_nth2 by exact Hge. rewrite (nth_overflow h) by exact Hge.
    destruct (Nat.lt_ge_cases (i - List.length h) k) as [Hk|Hk].
    + now rewrite nth_repeat_lt.   
    + apply nth_overflow. now rewrite repeat_length.
Qed.




(* ================================================================== *)
(** * Further properties of the sessions *)

(** ** Events one after the other *)

Lemma on_events_app (fuel : nat) (l : listener) (cb : callback search_state)
    (evs1 evs2 : list socket_event) :
  forall s,
    on_events fuel l cb s (evs1 ++ evs2)
    = (s1 <- on_events fuel l cb s evs1 ;; on_events fuel l cb s1 evs2).
Proof.
  induction evs1 as [|ev evs1 IH]; intros s; cbn [app on_events bind];
    [reflexivity|].
  destruct (on_event fuel l cb s ev) as [s1| |]; cbn [bind]; auto.
Qed.

Lemma closed_socket_hears_nothing (fuel : nat) (l : listener)
    (cb : callback search_state) (evs : list socket_event) (s : session) :
  socket_open s = false -> on_events fuel l cb s evs = Ret s.
Proof.
  intros Hclosed. induction evs as [|ev evs IH]; [reflexivity|].
  cbn [on_events]. unfold on_event. rewrite Hclosed. exact IH.
Qed.

Lemma after_socket_error (fuel : nat) (l : listener) (cb : callback search_state)
    (evs1 evs2 : list socket_event) (s : session) :
  (forall msg, In (Datagram msg) evs1 -> parse_dns_message fuel msg <> OutOfFuel) ->
  exists s', on_events fuel l cb s (evs1 ++ SocketError :: evs2) = Ret s'
             /\ socket_open s' = false.
Proof.
  intros Hparse.
  destruct (on_events_returns fuel l cb evs1 Hparse s) as [s1 H1].
  rewrite on_events_app, H1. cbn [bind on_events].
  unfold on_event at 1. destruct (socket_open s1) eqn:Hopen; cbn [bind].
  - eexists. split; [now apply closed_socket_hears_nothing|reflexivity].
  - exists s1. split; [now apply closed_socket_hears_nothing|exact Hopen].
Qed.

(** X21: once the socket has reported an error, the search delivers nothing:
    the error handler closes the socket, what arrives afterwards is not
    heard, and at the deadline the second [socket.close()] throws before any
    callback is called or the promise resolved, in both search functions. *)
Theorem socket_error_delivers_nothing (fuel : nat) (options : search_options)
    (evs1 evs2 : list socket_event) :
  (forall msg, In (Datagram msg) evs1 -> parse_dns_message fuel msg <> OutOfFuel) ->
  run_v0 fuel options (evs1 ++ SocketError :: evs2)
  = Throw ERR_SOCKET_DGRAM_NOT_RUNNING
  /\ run_v1 fuel options (evs1 ++ SocketError :: evs2)
     = Throw ERR_SOCKET_DGRAM_NOT_RUNNING.
Proof.
  intros Hparse. split.
  - unfold run_v0, search_mdns_services, start_mdns_listener. cbn [bind].
    match goal with
    | |- context [on_events fuel ?l ?cb ?s _] =>
        destruct (after_socket_error fuel l cb evs1 evs2 s Hparse) as [s' [E Hc]]
    end.
    cbn [started_listener started_calls fst snd] in *. rewrite E. cbn [bind].
    unfold deadline_v0. now rewrite Hc.
  - unfold run_v1, search_mdns_servicesmv1, start_mdns_listener. cbn [bind].
    match goal with
    | |- context [on_events fuel ?l ?cb ?s _] =>
        destruct (after_socket_error fuel l cb evs1 evs2 s Hparse) as [s' [E Hc]]
    end.
    cbn [started_listener started_calls fst snd] in *. rewrite E. cbn [bind].
    unfold deadline_v1. now rewrite Hc.
Qed.

Lemma socket_error_delivers_nothing_witness :
  run_v0 10 both_callbacks
         ([Listening true; Datagram full_datagram]
          ++ SocketError :: [Datagram ptr_datagram])
  = Throw ERR_SOCKET_DGRAM_NOT_RUNNING
  /\ run_v1 10 both_callbacks
            ([Listening true; Datagram full_datagram]
             ++ SocketError :: [Datagram ptr_datagram])
     = Throw ERR_SOCKET_DGRAM_NOT_RUNNING.
Proof.
  apply (socket_error_delivers_nothing 10 both_callbacks
           [Listening true; Datagram full_datagram] [Datagram ptr_datagram]).
  intros msg [H|[H|[]]]; [discriminate H|].
  inversion H; subst. vm_compute. discriminate.
Defined.

(* ================================================================== *)
(** ** What a session keeps from one event to the next *)

(** A property of the session that every step of the handler keeps. *)
Section Kept.

Variable cb : callback search_state.
Variable R : search_state -> search_state -> Prop.
Hypothesis R_refl : forall c, R c c.
Hypothesis R_trans : forall a b c, R a b -> R b c -> R a c.
Hypothesis R_cb : forall d c, R c (fst (cb d c)).

Lemma notify_services_keeps (fq : jsstring) (entries : services_object) :
  forall h c, R c (snd (fst (notify_services (Some cb) fq entries h c))).
Proof.
  induction entries as [|[instance svc] entries IH]; intros h c;
    cbn [notify_services]; [apply R_refl|].
  destruct (negb (is_smart_ip_service (s_name svc) fq)); [apply IH|].
  destruct (match s_addresses svc with
            | Some ref => (ref, h)
            | None => alloc h
            end) as [addresses h1].
  pose proof (R_cb (mk_device (display_name_of fq (s_name svc)) addresses
                              (s_port svc)
                              (match s_txt svc with Some t => t | None => [] end))
                   c) as Hstep.
  destruct (cb _ c) as [c1 err]. cbn [fst] in Hstep.
  destruct err as [e|]; cbn [fst snd]; [exact Hstep|].
  eapply R_trans; [exact Hstep|apply IH].
Qed.

Lemma on_events_keeps (fuel : nat) (l : listener) (evs : list socket_event) :
  forall s s',
    on_events fuel l cb s evs = Ret s' -> R (search s) (search s').
Proof.
  induction evs as [|ev evs IH]; intros s s' H.
  - inversion H; subst. apply R_refl.
  - cbn [on_events] in H.
    destruct (on_event fuel l cb s ev) as [s1| |] eqn:E; cbn [bind] in H;
      try discriminate.
    eapply R_trans; [|eapply IH; exact H].
    unfold on_event in E. destruct (socket_open s).
    + destruct ev as [joined|msg|].
      * inversion E; subst. apply R_refl.
      * unfold on_message in E.
        destruct (parse_dns_message fuel msg) as [parsed|e|]; cbn [bind] in E;
          inversion E; subst; cbn [search fst snd]; [|apply R_refl].
        unfold on_records.
        pose proof (notify_services_keeps (full_service_query l)
                      (services (fold_left (process_record (full_service_query l))
                                           (m_records parsed) (correlator s)))
                      (arrays (fold_left (process_record (full_service_query l))
                                         (m_records parsed) (correlator s)))
                      (search s)) as Hn.
        destruct (notify_services _ _ _ _ _) as [[h c1] err]. exact Hn.
      * inversion E; subst. apply R_refl.
    + inversion E; subst. apply R_refl.
Qed.

End Kept.

Lemma remember_grows (d : device) (u : list (jsstring * device)) :
  grows_from u (remember d u).
Proof.
  unfold remember. destruct (negb _); [eexists; reflexivity|apply grows_refl].
Qed.

(** X19: the list a search will deliver only grows at its end: the Devices it
    holds after some events are, in the same order, the first ones of the
    list it holds after any further events.  Devices are delivered in the
    order in which their names were first reported. *)
Theorem unique_devices_in_order_of_first_report (fuel : nat) (l : listener)
    (cb : callback search_state) (evs : list socket_event) (s s' : session) :
  remembers cb ->
  on_events fuel l cb s evs = Ret s' ->
  grows_from (unique_services (search s)) (unique_services (search s')).
Proof.
  intros Hcb H.
  apply (on_events_keeps cb
           (fun a b => grows_from (unique_services a) (unique_services b)))
    with (fuel := fuel) (l := l) (evs := evs).
  - intros c. apply grows_refl.
  - intros a b c. apply grows_trans.
  - intros d c. rewrite Hcb. apply remember_grows.
  - exact H.
Qed.

Lemma unique_devices_in_order_of_first_report_witness :
  let s := new_session [] in
  let s' := mk_session
              (mk_listener_state
                 [(device_1, mk_service device_1 None None None None)] [[]])
              (mk_search_state [(js "device-1", mk_device (js "device-1") 0 None [])] [])
              true [] in
  grows_from (unique_services (search s)) (unique_services (search s')).
Proof.
  intros s s'.
  apply (unique_devices_in_order_of_first_report 10 (listener_of no_options)
           (on_service_found_v0 JSUndefined) [Datagram ptr_datagram] s s').
  - apply on_service_found_v0_remembers.
  - vm_compute. reflexivity.
Defined.

(* ================================================================== *)
(** ** The two search functions on the same events *)

Lemma notify_services_ext {S : Type} (f g : callback S) (fq : jsstring)
    (entries : services_object) :
  (forall d c, f d c = g d c) ->
  forall h c,
    notify_services (Some f) fq entries h c
    = notify_services (Some g) fq entries h c.
Proof.
  intros Hfg. induction entries as [|[instance svc] entries IH]; intros h c;
    cbn [notify_services]; [reflexivity|].
  destruct (negb (is_smart_ip_service (s_name svc) fq)); [apply IH|].
  destruct (match s_addresses svc with
            | Some ref => (ref, h)
            | None => alloc h
            end) as [addresses h1].
  rewrite Hfg. destruct (g _ c) as [c1 [e|]]; [reflexivity|apply IH].
Qed.

Lemma on_events_ext (f g : callback search_state) (fuel : nat) (l : listener)
    (evs : list socket_event) :
  (forall d c, f d c = g d c) ->
  forall s, on_events fuel l f s evs = on_events fuel l g s evs.
Proof.
  intros Hfg. induction evs as [|ev evs IH]; intros s; [reflexivity|].
  cbn [on_events].
  assert (E : on_event fuel l f s ev = on_event fuel l g s ev).
  { unfold on_event. destruct (socket_open s); [|reflexivity].
    destruct ev as [joined|msg|]; try reflexivity.
    unfold on_message, on_records.
    destruct (parse_dns_message fuel msg); try reflexivity.
    now rewrite (notify_services_ext f g _ _ Hfg). }
  rewrite E. destruct (on_event fuel l g s ev); cbn [bind]; auto.
Qed.

(** X20: the two search functions keep the same books.  When the caller's
    [on_service_found] is a function or is unset (or falsy), the same events
    leave the same session, hence the same list to deliver, whether the
    wrapper is that of [search_mdns_services] or that of
    [search_mdns_servicesmv1]. *)
Theorem both_searches_find_the_same (fuel : nat) (l : listener)
    (original : js_value) (evs : list socket_event) (s : session) :
  is_function original || negb (truthy original) = true ->
  on_events fuel l (on_service_found_v0 original) s evs
  = on_events fuel l (on_service_found_v1 original) s evs.
Proof.
  intros H. apply on_events_ext. intros d c.
  unfold on_service_found_v0, on_service_found_v1.
  destruct original as [| |b|f|str|f thrown|o]; cbn in *; try reflexivity;
    try discriminate.
  - destruct b; [discriminate|reflexivity].
  - destruct (negb (PrimFloat.eqb f 0) && PrimFloat.eqb f f);
      [discriminate|reflexivity].
  - destruct (negb (str_eqb str [])); [discriminate|reflexivity].
Qed.

Lemma both_searches_find_the_same_witness :
  on_events 10 (listener_of no_options) (on_service_found_v0 (JSFunction 1 None))
            (new_session []) [Datagram full_datagram]
  = on_events 10 (listener_of no_options) (on_service_found_v1 (JSFunction 1 None))
              (new_session []) [Datagram full_datagram].
Proof.
  apply (both_searches_find_the_same 10 (listener_of no_options)
           (JSFunction 1 None)
           [Datagram full_datagram] (new_session [])).
  reflexivity.
Defined.

(* ================================================================== *)
(** ** The address arrays *)

Lemma arrays_grow_refl (h : heap) : arrays_grow h h.
Proof. intros ref. apply grows_refl. Qed.

Lemma arrays_grow_trans (h1 h2 h3 : heap) :
  arrays_grow h1 h2 -> arrays_grow h2 h3 -> arrays_grow h1 h3.
Proof. intros H1 H2 ref. eapply grows_trans; [apply H1|apply H2]. Qed.

Lemma push_grows (h : heap) :
  forall ref v, arrays_grow h (push h ref v).
Proof.
  induction h as [|a h IH]; intros ref v i; cbn [push].
  - apply grows_refl.
  - destruct ref as [|ref].
    + destruct i as [|i]; unfold deref; cbn [nth];
        [exists [v]; reflexivity|apply grows_refl].
    + destruct i as [|i]; unfold deref; cbn [nth]; [apply grows_refl|].
      apply IH.
Qed.

Lemma alloc_grows (h : heap) : arrays_grow h (snd (alloc h)).
Proof.
  intros ref. cbn [alloc snd].
  change (h ++ [[]]) with (h ++ repeat [] 1).
  rewrite deref_app_empty. apply grows_refl.
Qed.

Lemma push_address_grows (entries : services_object) :
  forall h owner ip, arrays_grow h (snd (push_address entries h owner ip)).
Proof.
  induction entries as [|[instance svc] entries IH]; intros h owner ip;
    cbn [push_address]; [apply arrays_grow_refl|].
  destruct (opt_str_eqb (s_target svc) owner).
  - destruct (s_addresses svc) as [ref|].
    + pose proof (IH (push h ref ip) owner ip) as Hrest.
      destruct (push_address entries (push h ref ip) owner ip) as [rest' h'].
      cbn [snd] in *.
      eapply arrays_grow_trans; [apply push_grows|exact Hrest].
    + cbn [alloc]. set (h0 := push (h ++ [[]]) (List.length h) ip).
      pose proof (IH h0 owner ip) as Hrest.
      destruct (push_address entries h0 owner ip) as [rest' h'].
      cbn [snd] in *.
      eapply arrays_grow_trans; [apply (alloc_grows h)|].
      eapply arrays_grow_trans; [apply push_grows|exact Hrest].
  - pose proof (IH h owner ip) as Hrest.
    destruct (push_address entries h owner ip) as [rest' h'].
    exact Hrest.
Qed.

Lemma process_record_grows (fq : jsstring) (st : listener_state) (rec : record) :
  arrays_grow (arrays st) (arrays (process_record fq st rec)).
Proof.
  unfold process_record. cbv zeta.
  destruct ((r_type rec =? 12) && str_eqb (r_name rec) fq).
  { destruct (r_rdata rec); try apply arrays_grow_refl.
    destruct (negb _); apply arrays_grow_refl. }
  destruct ((r_type rec =? 33) && is_smart_ip_service (r_name rec) fq).
  { destruct (r_rdata rec); apply arrays_grow_refl. }
  destruct ((r_type rec =? 16) && is_smart_ip_service (r_name rec) fq).
  { destruct (r_rdata rec); apply arrays_grow_refl. }
  destruct (r_type rec =? 1); [|apply arrays_grow_refl].
  destruct (r_rdata rec); try apply arrays_grow_refl.
  pose proof (push_address_grows (services st) (arrays st) (r_name rec) ip) as H.
  destruct (push_address (services st) (arrays st) (r_name rec) ip) as [s' h'].
  exact H.
Qed.

Lemma process_records_grow (fq : jsstring) (records : list record) :
  forall st,
    arrays_grow (arrays st) (arrays (fold_left (process_record fq) records st)).
Proof.
  induction records as [|rec records IH]; intros st; cbn [fold_left].
  - apply arrays_grow_refl.
  - eapply arrays_grow_trans; [apply process_record_grows|apply IH].
Qed.

Lemma notify_services_grows {S : Type} (cb : option (callback S))
    (fq : jsstring) (entries : services_object) :
  forall h c, arrays_grow h (fst (fst (notify_services cb fq entries h c))).
Proof.
  induction entries as [|[instance svc] entries IH]; intros h c;
    cbn [notify_services]; [apply arrays_grow_refl|].
  destruct (negb (is_smart_ip_service (s_name svc) fq)); [apply IH|].
  destruct cb as [f|]; [|apply IH].
  destruct (s_addresses svc) as [ref|].
  - destruct (f _ c) as [c1 [e|]]; [apply arrays_grow_refl|apply IH].
  - cbn [alloc]. destruct (f _ c) as [c1 [e|]]; cbn [fst].
    + apply (alloc_grows h).
    + eapply arrays_grow_trans; [apply (alloc_grows h)|apply IH].
Qed.

(** X17: an address array is only ever appended to.  Whatever the socket
    reports, every array the session holds afterwards starts with the
    addresses it held before, in their order: no address a Device has shown
    is removed or replaced, and a repeated A record adds its address again. *)
Theorem addresses_only_grow (fuel : nat) (l : listener)
    (cb : callback search_state) (evs : list socket_event) :
  forall s s',
    on_events fuel l cb s evs = Ret s' ->
    arrays_grow (arrays (correlator s)) (arrays (correlator s')).
Proof.
  induction evs as [|ev evs IH]; intros s s' H.
  - inversion H; subst. apply arrays_grow_refl.
  - cbn [on_events] in H.
    destruct (on_event fuel l cb s ev) as [s1| |] eqn:E; cbn [bind] in H;
      try discriminate.
    eapply arrays_grow_trans; [|eapply IH; exact H].
    unfold on_event in E. destruct (socket_open s).
    + destruct ev as [joined|msg|].
      * inversion E; subst. apply arrays_grow_refl.
      * unfold on_message in E.
        destruct (parse_dns_message fuel msg) as [parsed|e|]; cbn [bind] in E;
          inversion E; subst; cbn [correlator fst snd];
          [|apply arrays_grow_refl].
        unfold on_records.
        set (st1 := fold_left (process_record (full_service_query l))
                              (m_records parsed) (correlator s)).
        pose proof (notify_services_grows (Some cb) (full_service_query l)
                      (services st1) (arrays st1) (search s)) as Hn.
        destruct (notify_services _ _ _ _ _) as [[h c1] err].
        cbn [fst arrays] in *.
        eapply arrays_grow_trans; [apply process_records_grow|exact Hn].
      * inversion E; subst. apply arrays_grow_refl.
    + inversion E; subst. apply arrays_grow_refl.
Qed.

Lemma addresses_only_grow_witness :
  let s := mk_session
             (mk_listener_state
                [(device_1, mk_service device_1 (Some 5353) (Some host_local) None
                                       (Some O))]
                [[js "192.168.1.50"]])
             (mk_search_state [] []) true [] in
  exists s',
    on_events 10 (listener_of no_options) (on_service_found_v0 JSUndefined) s
              [Datagram full_datagram] = Ret s'
    /\ arrays_grow (arrays (correlator s)) (arrays (correlator s')).
Proof.
  intros s. eexists. split; [vm_compute; reflexivity|].
  apply (addresses_only_grow 10 (listener_of no_options)
           (on_service_found_v0 JSUndefined) [Datagram full_datagram]).
  vm_compute. reflexivity.
Defined.

(* ================================================================== *)
(** ** Datagrams without pointers are parsed to an end *)

Lemma readUInt16BE_not_OutOfFuel (buf : buffer) (offset : Z) :
  readUInt16BE buf offset <> OutOfFuel.
Proof. unfold readUInt16BE. destruct (_ && _); discriminate. Qed.

Lemma readUInt32BE_not_OutOfFuel (buf : buffer) (offset : Z) :
  readUInt32BE buf offset <> OutOfFuel.
Proof. unfold readUInt32BE. destruct (_ && _); discriminate. Qed.

Lemma ip_bytes_not_OutOfFuel (n : nat) (buf : buffer) :
  forall offset, ip_bytes n buf offset <> OutOfFuel.
Proof.
  induction n as [|n IH]; intros offset; cbn [ip_bytes]; [discriminate|].
  destruct (readUInt8 buf offset) eqn:R; cbn [bind]; try discriminate.
  - specialize (IH (offset + 1)).
    destruct (ip_bytes n buf (offset + 1)); cbn [bind]; try discriminate.
    congruence.
  - now apply readUInt8_not_OutOfFuel in R.
Qed.

Lemma try_wrap_OutOfFuel {A : Type} (prefix : string) (m : outcome A) :
  try_wrap prefix m = OutOfFuel -> m = OutOfFuel.
Proof. destruct m; simpl; intros H; try discriminate; reflexivity. Qed.

Ltac step_ends H :=
  match type of H with
  | bind ?m _ = OutOfFuel =>
      let E := fresh "E" in
      destruct m eqn:E; cbn [bind] in H;
      [ try discriminate H
      | discriminate H
      | first [ now apply readUInt8_not_OutOfFuel in E
              | now apply readUInt16BE_not_OutOfFuel in E
              | now apply readUInt32BE_not_OutOfFuel in E
              | now apply ip_bytes_not_OutOfFuel in E
              | now apply txt_loop_of_parse_record_ends in E
              | idtac ] ]
  end.

Ltac name_ends :=
  match goal with
  | E : read_name _ _ _ = OutOfFuel |- _ =>
      revert E; apply read_name_ends_plain; [assumption|lia]
  end.

Lemma parse_record_ends (buf : buffer) (fuel : nat) (offset : Z) :
  pointer_free buf -> 0 <= offset -> buf_length buf <= Z.of_nat fuel ->
  parse_record (S fuel) buf offset <> OutOfFuel.
Proof.
  intros Hfree Hoff Hfuel H. unfold parse_record in H.
  apply try_wrap_OutOfFuel in H.
  destruct (read_name (S fuel) buf offset) as [owner| |] eqn:N; cbn [bind] in H;
    try discriminate;
    [|revert N; apply read_name_ends_plain; [assumption|lia]].
  apply read_name_stays_inside in N.
  do 4 step_ends H.
  destruct (_ =? 12); [step_ends H; name_ends|].
  destruct (_ =? 33); [do 4 step_ends H; name_ends|].
  destruct (_ =? 16).
  { step_ends H. destruct a3 as [txts off]. discriminate. }
  destruct (_ =? 1); [step_ends H|].
  discriminate.
Qed.

Lemma skip_questions_ends (buf : buffer) (fuel : nat) (n : nat) :
  pointer_free buf -> buf_length buf <= Z.of_nat fuel ->
  forall offset, 0 <= offset ->
    skip_questions (S fuel) n buf offset <> OutOfFuel
    /\ forall offset', skip_questions (S fuel) n buf offset = Ret offset' ->
                       0 <= offset'.
Proof.
  intros Hfree Hfuel. induction n as [|n IH]; intros offset Hoff;
    cbn [skip_questions].
  - split; [discriminate|]. intros offset' H. inversion H; subst. exact Hoff.
  - destruct (read_name (S fuel) buf offset) as [res| |] eqn:N; cbn [bind].
    + apply read_name_stays_inside in N. apply IH. lia.
    + split; discriminate.
    + exfalso. revert N. apply read_name_ends_plain; [assumption|lia].
Qed.

Lemma parse_records_ends (buf : buffer) (fuel : nat) (n : nat) :
  pointer_free buf -> buf_length buf <= Z.of_nat fuel ->
  forall offset, 0 <= offset ->
    parse_records (S fuel) n buf offset <> OutOfFuel.
Proof.
  intros Hfree Hfuel. induction n as [|n IH]; intros offset Hoff;
    cbn [parse_records]; [discriminate|].
  destruct (parse_record (S fuel) buf offset) as [rec| |] eqn:P; cbn [bind].
  - assert (Hnext : 0 <= r_offset rec).
    { apply parse_record_eleven in P. lia. }
    specialize (IH _ Hnext).
    destruct (parse_records (S fuel) n buf (r_offset rec)); cbn [bind];
      try discriminate. congruence.
  - discriminate.
  - exfalso. revert P. now apply parse_record_ends.
Qed.

Lemma parse_dns_message_ends_plain (buf : buffer) (fuel : nat) :
  pointer_free buf -> buf_length buf <= Z.of_nat fuel ->
  parse_dns_message (S fuel) buf <> OutOfFuel.
Proof.
  intros Hfree Hfuel H. unfold parse_dns_message in H.
  apply try_wrap_OutOfFuel in H.
  do 6 step_ends H.
  destruct (skip_questions_ends buf fuel (Z.to_nat a1) Hfree Hfuel 12 ltac:(lia))
    as [Hq Hoff].
  destruct (skip_questions (S fuel) (Z.to_nat a1) buf 12) as [offset| |] eqn:Q;
    cbn [bind] in H; try discriminate; [|now apply Hq].
  specialize (Hoff _ eq_refl).
  pose proof (parse_records_ends buf fuel (Z.to_nat (a2 + a3 + a4)) Hfree Hfuel
                offset Hoff) as Hr.
  destruct (parse_records (S fuel) (Z.to_nat (a2 + a3 + a4)) buf offset);
    cbn [bind] in H; try discriminate. now apply Hr.
Qed.

(** X12: a datagram that holds no pointer byte is parsed to an end: within as
    many iterations of [read_name]'s loop as the datagram has bytes, plus
    one, [parse_dns_message] returns the message or throws. *)
Theorem plain_datagram_parses_to_an_end (buf : buffer) (fuel : nat) :
  pointer_free buf -> buf_length buf <= Z.of_nat fuel ->
  parse_dns_message (S fuel) buf <> OutOfFuel.
Proof.
  intros Hfree Hfuel H. unfold parse_dns_message in H.
  apply try_wrap_OutOfFuel in H.
  do 6 step_ends H.
  destruct (skip_questions_ends buf fuel (Z.to_nat a1) Hfree Hfuel 12 ltac:(lia))
    as [Hq Hoff].
  destruct (skip_questions (S fuel) (Z.to_nat a1) buf 12) as [offset| |] eqn:Q;
    cbn [bind] in H; try discriminate; [|now apply Hq].
  specialize (Hoff _ eq_refl).
  pose proof (parse_records_ends buf fuel (Z.to_nat (a2 + a3 + a4)) Hfree Hfuel
                offset Hoff) as Hr.
  destruct (parse_records (S fuel) (Z.to_nat (a2 + a3 + a4)) buf offset);
    cbn [bind] in H; try discriminate. now apply Hr.
Qed.

Lemma plain_datagram_parses_to_an_end_witness :
  parse_dns_message 22
    foo_question <> OutOfFuel.
Proof.
  apply (plain_datagram_parses_to_an_end
           foo_question 21).
  - repeat constructor; vm_compute; discriminate.
  - vm_compute. discriminate.
Defined.

(* ================================================================== *)
(** ** A search on such traffic delivers *)

Lemma socket_stays_open (fuel : nat) (l : listener) (cb : callback search_state)
    (evs : list socket_event) :
  ~ In SocketError evs ->
  forall s s',
    socket_open s = true ->
    on_events fuel l cb s evs = Ret s' -> socket_open s' = true.
Proof.
  induction evs as [|ev evs IH]; intros Hno s s' Hopen H.
  - inversion H; subst. exact Hopen.
  - cbn [on_events] in H.
    destruct (on_event fuel l cb s ev) as [s1| |] eqn:E; cbn [bind] in H;
      try discriminate.
    apply (IH (fun Hin => Hno (or_intror Hin)) s1 s'); [|exact H].
    unfold on_event in E. rewrite Hopen in E.
    destruct ev as [joined|msg|].
    + inversion E; subst. reflexivity.
    + destruct (on_message _ _ _ _ _ _); cbn [bind] in E; inversion E; subst.
      reflexivity.
    + exfalso. apply Hno. now left.
Qed.

(** X22: a search delivers on traffic without pointers and without a socket
    error, whatever the datagrams hold and whatever the other options, when
    [on_search_complete] is not a function that throws: every handler
    returns, the timer callback of [search_mdns_servicesmv1] returns, and
    its last step resolves the promise, once, with the list the session
    holds after the events. *)
Theorem search_delivers_on_plain_traffic (fuel : nat) (options : search_options)
    (evs : list socket_event) :
  (forall msg, In (Datagram msg) evs ->
               pointer_free msg /\ buf_length msg <= Z.of_nat fuel) ->
  ~ In SocketError evs ->
  returns (opt_on_search_complete options) = true ->
  exists st s before,
    search_mdns_servicesmv1 options = Ret st
    /\ on_events (S fuel) (started_listener st)
                 (on_service_found_v1 (opt_on_service_found options))
                 (new_session (started_calls st)) evs = Ret s
    /\ run_v1 (S fuel) options evs
       = Ret (before ++ [PromiseResolved (uniqueServiceArray s)])
    /\ count is_resolution before = 0%nat.
Proof.
  intros Hplain Hno Hreturns.
  unfold run_v1, search_mdns_servicesmv1, start_mdns_listener. cbn [bind].
  cbn [started_listener started_calls fst snd].
  assert (Hparse : forall msg, In (Datagram msg) evs ->
                     parse_dns_message (S fuel) msg <> OutOfFuel).
  { intros msg Hin. destruct (Hplain msg Hin) as [Hfree Hlen].
    now apply parse_dns_message_ends_plain. }
  eexists. cbn [started_listener started_calls].
  match goal with
  | |- context [on_events ?f ?l ?cb ?s0 evs] =>
      destruct (on_events_returns f l cb evs Hparse s0) as [s' E];
      pose proof (socket_stays_open f l cb evs Hno s0 s' eq_refl E) as Hopen
  end.
  exists s'.
  assert (Hdeadline : exists before,
             deadline_v1 options s'
             = Ret (before ++ [PromiseResolved (uniqueServiceArray s')])
             /\ count is_resolution before = 0%nat).
  { unfold deadline_v1. rewrite Hopen.
    destruct (opt_on_search_complete options) as [| |b|x|str|f [e|]|o];
      try discriminate Hreturns; cbn [bind app].
    6:{ exists [CompleteCallback f (uniqueServiceArray s');
                ConsoleLog (uniqueServiceArray s')]. now split. }
    all: exists [ConsoleLog (uniqueServiceArray s')]; now split. }
  destruct Hdeadline as [before [Hd Hcount]]. exists before.
  split; [reflexivity|]. split; [exact E|].
  cbn [started_listener started_calls] in *. rewrite E. cbn [bind].
  split; [exact Hd|exact Hcount].
Qed.

Lemma search_delivers_on_plain_traffic_witness :
  (exists st s before,
     search_mdns_servicesmv1 both_callbacks = Ret st
     /\ on_events 76 (started_listener st)
                  (on_service_found_v1 (opt_on_service_found both_callbacks))
                  (new_session (started_calls st))
                  [Listening true; Datagram plain_ptr_datagram] = Ret s
     /\ run_v1 76 both_callbacks [Listening true; Datagram plain_ptr_datagram]
        = Ret (before ++ [PromiseResolved (uniqueServiceArray s)])
     /\ count is_resolution before = 0%nat)
  /\ run_v1 76 both_callbacks [Listening true; Datagram plain_ptr_datagram]
     = Ret [CompleteCallback 2 [mk_delivered (js "device-1") [] None []];
            ConsoleLog [mk_delivered (js "device-1") [] None []];
            PromiseResolved [mk_delivered (js "device-1") [] None []]].
Proof.
  split; [|vm_compute; reflexivity].
  apply (search_delivers_on_plain_traffic 75 both_callbacks
           [Listening true; Datagram plain_ptr_datagram]).
  - intros msg [H|[H|[]]]; [discriminate H|]. inversion H; subst. split.
    + repeat constructor; vm_compute; discriminate.
    + vm_compute. discriminate.
  - intros [H|[H|[]]]; discriminate H.
  - reflexivity.
Defined.

(* ================================================================== *)
(** ** The callback of [bind] *)

(** X18: a service name [build_query] cannot encode is not an error of the
    search.  When a label of the service name is longer than 255 code units,
    the callback of [bind] joins the group, sends nothing, and returns: the
    error is caught there, the socket stays open and the session goes on. *)
Theorem unbuildable_query_is_not_sent (fuel : nat) (options : search_options)
    (cb : callback search_state) (s : session) (joined : bool) :
  Exists (fun part => 255 < str_length part)
         (split_on dot (service_query (listener_of options))) ->
  socket_open s = true ->
  on_event fuel (listener_of options) cb s (Listening joined)
  = Ret (mk_session (correlator s) (search s) true
                    (calls s ++ [AddMembership (mdns_address (listener_of options))
                                               (local_interface (listener_of options))])).
Proof.
  intros Hlong Hopen. unfold on_event. rewrite Hopen. unfold on_bound.
  destruct joined; [|reflexivity].
  unfold build_query. cbv zeta.
  rewrite split_full_service_query, qname_labels_over; [reflexivity|].
  apply Exists_app. now left.
Qed.

Lemma unbuildable_query_is_not_sent_witness :
  on_event 10 (listener_of long_label_options) (on_service_found_v1 JSUndefined)
           (new_session []) (Listening true)
  = Ret (mk_session (mk_listener_state [] []) (mk_search_state [] []) true
                    ([] ++ [AddMembership
                              (mdns_address (listener_of long_label_options))
                              (local_interface (listener_of long_label_options))])).
Proof.
  apply (unbuildable_query_is_not_sent 10 long_label_options
           (on_service_found_v1 JSUndefined) (new_session []) true).
  - apply Exists_cons_hd. vm_compute. reflexivity.
  - reflexivity.
Defined.

(* ================================================================== *)
(** ** Instances *)

Lemma build_query_read_name_ascii_witness :
  exists q,
    build_query default_service_query = Ret q
    /\ read_name (List.length (split_on dot default_service_query) + 2) q 12
       = Ret (mk_name_result (default_service_query ++ local_suffix)
                             (buf_length q - 4)).
Proof.
  apply (build_query_read_name_ascii default_service_query).
  - change default_service_query
      with [95; 115; 109; 97; 114; 116; 95; 105; 112; 46; 95; 116; 99; 112].
    repeat (constructor; [lia|]). constructor.
  - repeat constructor; vm_compute; discriminate.
Defined.

Lemma parse_record_shape_witness : shape_ok ptr_rec.
Proof.
  apply (parse_record_shape 10 full_datagram 12 ptr_rec). reflexivity.
Defined.

Lemma truncated_header_throws_witness :
  exists e, parse_dns_message 10 (firstn 11 full_datagram) = Throw e.
Proof.
  apply (truncated_header_throws 10 (firstn 11 full_datagram)). reflexivity.
Defined.

(* ================================================================== *)
(** ** The correlator: entries are updated where they are *)

















